(** * bqb: placeholder substitution and dialect rendering

    A shallow embedding of the Go package [bqb] (files [utils.go] and the
    expression file holding [Valf], [Group] and [intfToExpr]), together with
    the parts of Go's [strings], [bytes] and [bufio] packages that the code
    calls.  Go strings are byte sequences and are modelled as lists of 8-bit
    characters. *)

From Stdlib Require Import List Ascii Arith ZArith Lia Bool.
From Stdlib Require String DecimalString DecimalNat.
Import ListNotations String.StringSyntax.
Delimit Scope string_scope with string.

Set Implicit Arguments.
Set Warnings "-register-all".

Arguments ascii_dec : simpl never.

(** ** Go strings *)

Definition gostring := list ascii.

Definition str (s : String.string) : gostring := String.list_ascii_of_string s.
Arguments str s%_string.

Definition gostring_eqb (a b : gostring) : bool :=
  if list_eq_dec ascii_dec a b then true else false.

(** ** The [strings] and [bytes] functions used by the package *)

Module GoStrings.

(** [strings.HasPrefix(s, p)]. *)
Fixpoint HasPrefix (s p : gostring) {struct p} : bool :=
  match p, s with
  | [], _ => true
  | _ :: _, [] => false
  | a :: p', b :: s' => if ascii_dec a b then HasPrefix s' p' else false
  end.

(** [strings.Index(s, sep)] and [bytes.Index]: the offset of the first
    occurrence of [sep] in [s]; Go's [-1] is [None]. *)
Fixpoint Index (s sep : gostring) : option nat :=
  if HasPrefix s sep then Some 0
  else match s with
       | [] => None
       | _ :: s' => option_map S (Index s' sep)
       end.

(** [strings.Contains(s, sub)]. *)
Definition Contains (s sub : gostring) : bool :=
  match Index s sub with Some _ => true | None => false end.

(** [strings.Replace(s, old, new, 1)]: only the first occurrence. *)
Definition Replace1 (s old new : gostring) : gostring :=
  match Index s old with
  | None => s
  | Some i => firstn i s ++ new ++ skipn (i + length old) s
  end.

(** Left-to-right traversal shared by [Count] and [ReplaceAll] for a
    non-empty [old]: [skip] is the number of bytes of the current match
    still to be passed over. *)
Fixpoint replace_from (old new : gostring) (skip : nat) (s : gostring) : gostring :=
  match s with
  | [] => []
  | c :: s' =>
      match skip with
      | S k => replace_from old new k s'
      | O => if HasPrefix s old
             then new ++ replace_from old new (length old - 1) s'
             else c :: replace_from old new 0 s'
      end
  end.

(** [strings.ReplaceAll(s, old, new)], for the non-empty [old] strings the
    package passes. *)
Definition ReplaceAll (s old new : gostring) : gostring :=
  replace_from old new 0 s.

Fixpoint count_from (sub : gostring) (skip : nat) (s : gostring) : nat :=
  match s with
  | [] => 0
  | _ :: s' =>
      match skip with
      | S k => count_from sub k s'
      | O => if HasPrefix s sub
             then S (count_from sub (length sub - 1) s')
             else count_from sub 0 s'
      end
  end.

(** [strings.Count(s, sub)]: non-overlapping occurrences, for non-empty
    [sub]. *)
Definition Count (s sub : gostring) : nat := count_from sub 0 s.

(** [strings.Join(elems, sep)]. *)
Fixpoint Join (elems : list gostring) (sep : gostring) : gostring :=
  match elems with
  | [] => []
  | [e] => e
  | e :: rest => e ++ sep ++ Join rest sep
  end.

End GoStrings.
Import GoStrings.

(** ** [bufio.Scanner] reading from a [bytes.Buffer] *)

Module Bufio.

Inductive error :=
| EOF
| ErrTooLong
| ErrNegativeAdvance
| ErrAdvanceTooFar
| ErrNoProgress.

Definition MaxScanTokenSize : nat := 64 * 1024.
Definition startBufSize : nat := 4096.
Definition maxConsecutiveEmptyReads : nat := 100.

(** A split function sees the unprocessed window and the [atEOF] flag and
    answers with the advance and an optional token (Go's [nil] token is
    [None]).  The split function of this package never returns an error. *)
Definition SplitFunc := gostring -> bool -> nat * option gostring.

(** The scanner keeps [buf[start:end]] as [win]; [buflen] is [len(buf)],
    [rd] the bytes the underlying [bytes.Buffer] has not handed out yet. *)
Record Scanner := mkScanner {
  rd : gostring;
  buflen : nat;
  start : nat;
  win : gostring;
  serr : option error;
  empties : nat
}.

Definition NewScanner (input : gostring) : Scanner :=
  mkScanner input 0 0 [] None 0.

Definition send (s : Scanner) : nat := start s + length (win s).

(** [setErr]: the first error other than [EOF] is kept. *)
Definition setErr (s : Scanner) (e : error) : Scanner :=
  match serr s with
  | None | Some EOF => mkScanner (rd s) (buflen s) (start s) (win s) (Some e) (empties s)
  | Some _ => s
  end.

(** [Err]: [io.EOF] is not reported. *)
Definition Err (s : Scanner) : option error :=
  match serr s with
  | Some EOF => None
  | e => e
  end.

Inductive scan_result :=
| Token (s : Scanner) (tok : gostring)   (* Scan returned true *)
| Stop (s : Scanner)                     (* Scan returned false *)
| Panic                                  (* too many empty tokens *)
| OutOfFuel.

Definition is_set (e : option error) : bool :=
  match e with Some _ => true | None => false end.

(** "Shift data to beginning of buffer if there's lots of empty space or
    space is needed." *)
Definition shift (s : Scanner) : Scanner :=
  if (0 <? start s) && ((send s =? buflen s) || (buflen s / 2 <? start s))
  then mkScanner (rd s) (buflen s) 0 (win s) (serr s) (empties s)
  else s.

(** The buffer is reallocated at twice its size, capped by the maximal
    token size; the window moves to its beginning. *)
Definition grow (s : Scanner) : Scanner :=
  let newSize := if buflen s * 2 =? 0 then startBufSize else buflen s * 2 in
  mkScanner (rd s) (Nat.min newSize MaxScanTokenSize) 0 (win s) (serr s) (empties s).

(** One [Read] of the [bytes.Buffer] into [buf[end:]], which is not empty
    here: either some bytes, or [io.EOF] when none are left. *)
Definition read (s : Scanner) : Scanner :=
  let n := Nat.min (buflen s - send s) (length (rd s)) in
  if n =? 0 then setErr s EOF
  else mkScanner (skipn n (rd s)) (buflen s) (start s)
                 (win s ++ firstn n (rd s)) (serr s) 0.

(** The part of [Scan] after the split function declined: shift, grow and
    read.  [inr] is returned when [Scan] itself returns false. *)
Definition refill (s : Scanner) : Scanner + Scanner :=
  if is_set (serr s) then
    inr (mkScanner (rd s) (buflen s) 0 [] (serr s) (empties s))
  else if send (shift s) =? buflen (shift s) then
    if MaxScanTokenSize <=? buflen (shift s) then inr (setErr (shift s) ErrTooLong)
    else inl (read (grow (shift s)))
  else inl (read (shift s)).

(** [Scanner.Scan]. *)
Fixpoint Scan (fuel : nat) (split : SplitFunc) (s : Scanner) : scan_result :=
  match fuel with
  | O => OutOfFuel
  | S fuel' =>
      let continue (s : Scanner) :=
        match refill s with
        | inl s' => Scan fuel' split s'
        | inr s' => Stop s'
        end in
      if (0 <? length (win s)) || is_set (serr s) then
        let '(advance, token) := split (win s) (is_set (serr s)) in
        if length (win s) <? advance then Stop (setErr s ErrAdvanceTooFar)
        else
          let s1 := mkScanner (rd s) (buflen s) (start s + advance)
                              (skipn advance (win s)) (serr s) (empties s) in
          match token with
          | Some tok =>
              if negb (is_set (serr s1)) || (0 <? advance) then
                Token (mkScanner (rd s1) (buflen s1) (start s1) (win s1) (serr s1) 0) tok
              else if maxConsecutiveEmptyReads <? S (empties s1) then Panic
              else Token (mkScanner (rd s1) (buflen s1) (start s1) (win s1) (serr s1)
                                    (S (empties s1))) tok
          | None => continue s1
          end
      else continue s
  end.

End Bufio.

(** ** [scanReplace] and [replaceWithScans] *)

(** A replacement function may panic (an index out of range); [None] is
    the panic. *)
Definition replaceFn := nat -> option gostring.

(** The split function [scanReplace] installs. *)
Definition scanSplit (ph : gostring) : Bufio.SplitFunc := fun data atEOF =>
  if atEOF && (length data =? 0) then (0, None)
  else match Index data ph with
       | Some O => (length ph, Some (firstn (length ph) data))
       | Some (S i) => (S i, Some (firstn (S i) data))
       | None => if atEOF then (length data, Some data) else (0, None)
       end.

Inductive outcome (A : Type) :=
| Returned (a : A)
| Panicked
| Diverged.
Arguments Returned {A} a.
Arguments Panicked {A}.
Arguments Diverged {A}.

(** The [for scanner.Scan()] loop: [i] counts the replaced tokens, [sb] is
    the string builder. *)
Fixpoint scanLoop (fuel : nat) (replace : gostring) (fn : replaceFn)
         (s : Bufio.Scanner) (i : nat) (sb : gostring)
  : outcome (gostring * option Bufio.error) :=
  match fuel with
  | O => Diverged
  | S fuel' =>
      match Bufio.Scan (S (S (length (Bufio.rd s)))) (scanSplit replace) s with
      | Bufio.Token s' txt =>
          if gostring_eqb txt replace
          then match fn i with
               | Some r => scanLoop fuel' replace fn s' (S i) (sb ++ r)
               | None => Panicked
               end
          else scanLoop fuel' replace fn s' i (sb ++ txt)
      | Bufio.Stop s' => Returned (sb, Bufio.Err s')
      | Bufio.Panic => Panicked
      | Bufio.OutOfFuel => Diverged
      end
  end.

Definition scanReplace (stmt replace : gostring) (fn : replaceFn)
  : outcome (gostring * option Bufio.error) :=
  scanLoop (S (length stmt)) replace fn (Bufio.NewScanner stmt) 0 [].

(** ** Values, errors and fragments *)

(** The internal placeholder token. *)
Definition paramPh : gostring := str "xX_PARAM_Xx".

Definition questionMark : gostring := str "?".
Definition doubleQuestionMarkDelimiter : gostring := str "??".

(** [fmt.Sprintf("%d", n)] and [fmt.Sprintf("%v", z)] for integers. *)
Definition fmt_nat (n : nat) : gostring :=
  str (DecimalString.NilEmpty.string_of_uint (Nat.to_uint n)).
Definition fmt_Z (z : Z) : gostring :=
  str (DecimalString.NilEmpty.string_of_int (Z.to_int z)).

Inductive intkind :=
| KInt | KInt8 | KInt16 | KInt32 | KInt64
| KUint | KUint8 | KUint16 | KUint32 | KUint64.

(** The dynamic values an [any] argument or parameter holds, by the cases
    the type switches of [convertArg], [Valf], [intfToExpr] and [paramToRaw]
    tell apart.  A float carries its [%v] rendering, a capability value the
    result of its method, a JSON value the result of [json.Marshal], a
    non-nil [*Query] the result of its [toSql]; a failure of these is given
    by its message. *)
Inductive value :=
| VNil
| VBool (b : bool)
| VInt (k : intkind) (z : Z)
| VFloat (rendering : gostring)
| VString (s : gostring)
| VIntPtr (p : option Z)
| VStringPtr (p : option gostring)
| VInts (l : list Z)
| VIntPtrs (l : list (option Z))
| VStrings (l : list gostring)
| VStringPtrs (l : list (option gostring))
| VAnys (l : list value)
| VEmbedder (rawValue : gostring)
| VValuer (result : value + gostring)
| VQuery (q : option (gostring * list value * option gostring))
| VJson (marshal : gostring + gostring)
| VJsonPtr (marshal : gostring + gostring)
| VEmbedded (s : gostring)
| VExpr (F : gostring) (V : list value)
| VOther (type : gostring).

Inductive error :=
| ExtraMark (original : gostring) (nargs : nat)    (* "extra ? in text: %v (%d args)" *)
| MissingMark (original : gostring) (nargs : nat)  (* "missing ? in text: %v (%d args)" *)
| JsonError (cause : gostring)                     (* "cann jsonify struct: %v" *)
| UnsupportedRaw (param : value)                   (* "unsupported type for Raw query: %T" *)
| ScanError (e : Bufio.error)
| Foreign (msg : gostring)                         (* returned by Value() or toSql() *)
| Joined (errs : list error).                      (* errors.Join *)

(** [errors.Join]: nil errors are dropped, and joining nothing is nil. *)
Definition errors_Join (errs : list (option error)) : option error :=
  match flat_map (fun e => match e with Some x => [x] | None => [] end) errs with
  | [] => None
  | es => Some (Joined es)
  end.

Record Expr := mkExpr { F : gostring; V : list value }.

Record QueryPart := mkQueryPart {
  Text : gostring;
  Params : list value;
  Errs : list error
}.

Inductive Dialect := PGSQL | MYSQL | SQL | RAW | OtherDialect.

(** ** utils.go *)

(** [paramToRaw] *)
Definition paramToRaw (param : value) : gostring * option error :=
  match param with
  | VBool b => (if b then str "true" else str "false", None)
  | VFloat r => (r, None)
  | VInt KUint _ => ([], Some (UnsupportedRaw param))
  | VInt _ z => (fmt_Z z, None)
  | VIntPtr None => (str "NULL", None)
  | VIntPtr (Some z) => (fmt_Z z, None)
  | VString s => (str "'" ++ s ++ str "'", None)
  | VStringPtr None => (str "NULL", None)
  | VStringPtr (Some s) => (str "'" ++ s ++ str "'", None)
  | VNil => (str "NULL", None)
  | _ => ([], Some (UnsupportedRaw param))
  end.

Record scan := mkScan { pattern : gostring; fn : replaceFn }.

(** [replaceWithScans]: the scans run in sequence, each on the output of
    the one before, and their errors are joined. *)
Fixpoint runScans (input : gostring) (ss : list scan) (errs : list (option error))
  : outcome (gostring * option error) :=
  match ss with
  | [] => Returned (input, errors_Join errs)
  | s :: ss' =>
      match scanReplace input (pattern s) (fn s) with
      | Returned (out, err) =>
          runScans out ss' (errs ++ [option_map ScanError err])
      | Panicked => Panicked
      | Diverged => Diverged
      end
  end.

Definition replaceWithScans (input : gostring) (ss : list scan)
  : outcome (gostring * option error) :=
  runScans input ss [].

(** The [for i, param := range params] loop of the [RAW] case: the first
    failing parameter ends it. *)
Fixpoint rawParams (params : list value) : list gostring + error :=
  match params with
  | [] => inl []
  | param :: rest =>
      match paramToRaw param with
      | (_, Some err) => inr err
      | (p, None) =>
          match rawParams rest with
          | inl raws => inl (p :: raws)
          | inr err => inr err
          end
      end
  end.

(** [dialectReplace].  [raws[i]] panics when [i] is out of range. *)
Definition dialectReplace (dialect : Dialect) (sql : gostring) (params : list value)
  : outcome (gostring * option error) :=
  match dialect with
  | RAW =>
      match rawParams params with
      | inr err => Returned ([], Some err)
      | inl raws =>
          replaceWithScans sql [mkScan paramPh (fun i => nth_error raws i)]
      end
  | MYSQL | SQL =>
      replaceWithScans sql [mkScan paramPh (fun _ => Some questionMark)]
  | PGSQL =>
      replaceWithScans sql
        [mkScan doubleQuestionMarkDelimiter (fun _ => Some questionMark);
         mkScan paramPh (fun i => Some (str "$" ++ fmt_nat (i + 1)))]
  | OtherDialect => Returned (sql, None)
  end.

(** [convertArg]: the text with the first [?] replaced, the parameters the
    argument contributes, and the errors it raised. *)
Definition convertArg (text : gostring) (arg : value)
  : gostring * list value * list error :=
  let placeholders {A} (v : list A) := Join (map (fun _ => paramPh) v) (str ",") in
  match arg with
  | VEmbedder raw => (Replace1 text (str "?") raw, [], [])
  | VValuer r =>
      let text := Replace1 text (str "?") paramPh in
      match r with
      | inr msg => (text, [], [Foreign msg])
      | inl val => (text, [val], [])
      end
  | VInts v =>
      (Replace1 text (str "?") (placeholders v), map (VInt KInt) v, [])
  | VIntPtrs v =>
      if 0 <? length v
      then (Replace1 text (str "?") (placeholders v), map VIntPtr v, [])
      else (Replace1 text (str "?") paramPh, [VNil], [])
  | VStrings v =>
      (Replace1 text (str "?") (placeholders v), map VString v, [])
  | VStringPtrs v =>
      if 0 <? length v
      then (Replace1 text (str "?") (placeholders v), map VStringPtr v, [])
      else (Replace1 text (str "?") paramPh, [VNil], [])
  | VAnys v =>
      (Replace1 text (str "?") (placeholders v), v, [])
  | VQuery None =>
      (Replace1 text (str "?") paramPh, [VNil], [])
  | VQuery (Some (sql, params, err)) =>
      let text := Replace1 text (str "?") sql in
      match err with
      | Some msg => (text, [], [Foreign msg])
      | None => (text, params, [])
      end
  | VJson m | VJsonPtr m =>
      let text := Replace1 text (str "?") paramPh in
      match m with
      | inr cause => (text, [], [JsonError cause])
      | inl bytes => (text, [VString bytes], [])
      end
  | VEmbedded v => (Replace1 text (str "?") v, [], [])
  | v => (Replace1 text (str "?") paramPh, [v], [])
  end.

(** [checkParamCounts] *)
Definition checkParamCounts (text original : gostring) (args : list value)
  : option error :=
  if 0 <? Count text (str "?") then Some (ExtraMark original (length args))
  else if Count text paramPh <? length args
       then Some (MissingMark original (length args))
       else None.

(** The [for _, arg := range args] loop of [makePart]. *)
Fixpoint convertArgs (text : gostring) (newArgs : list value) (errs : list error)
         (args : list value) : gostring * list value * list error :=
  match args with
  | [] => (text, newArgs, errs)
  | arg :: rest =>
      let '(argText, fArgs, argErrs) := convertArg text arg in
      convertArgs argText (newArgs ++ fArgs) (errs ++ argErrs) rest
  end.

Definition tempPh : gostring := str "XXX___XXX".

(** [makePart] *)
Definition makePart (text : gostring) (args : list value) : QueryPart :=
  let originalText := text in
  let text := ReplaceAll text (str "??") tempPh in
  let '(text, newArgs, errs) := convertArgs text [] [] args in
  let errs := match checkParamCounts text originalText newArgs with
              | Some err => errs ++ [err]
              | None => errs
              end in
  mkQueryPart (ReplaceAll text tempPh (str "??")) newArgs errs.

(** ** The expression file *)

Definition tmpQ : gostring := str "1xXX1_Y_2XXx2".

(** One round of the [for _, val := range vals] loop of [Valf]. *)
Definition valfArg (newExpr : gostring) (val : value) : gostring * list value :=
  let newPart {A} (v : list A) := Join (map (fun _ => paramPh) v) (str ", ") in
  match val with
  | VInts v => (Replace1 newExpr (str "?") (newPart v), map (VInt KInt) v)
  | VStrings v => (Replace1 newExpr (str "?") (newPart v), map VString v)
  | VAnys v => (Replace1 newExpr (str "?") (newPart v), v)
  | v => (Replace1 newExpr (str "?") paramPh, [v])
  end.

Fixpoint valfArgs (newExpr : gostring) (params : list value) (vals : list value)
  : gostring * list value :=
  match vals with
  | [] => (newExpr, params)
  | val :: rest =>
      let '(newExpr, ps) := valfArg newExpr val in
      valfArgs newExpr (params ++ ps) rest
  end.

(** [Valf] *)
Definition Valf (expr : gostring) (vals : list value) : outcome Expr :=
  let newExpr := ReplaceAll expr (str "??") tmpQ in
  let '(newExpr, params) := valfArgs newExpr [] vals in
  if Contains newExpr (str "?") then Panicked
  else Returned (mkExpr (ReplaceAll newExpr tmpQ (str "?")) params).

(** An [Expr] handed over as an [interface{}] argument. *)
Definition anyExpr (e : Expr) : value := VExpr (F e) (V e).

Definition exprMask : gostring := str "xXxXy__".

(** [intfToExpr] *)
Definition intfToExpr (intf : value) : outcome Expr :=
  match intf with
  | VString v =>
      let v := ReplaceAll v (str "??") exprMask in
      if Contains v (str "?") then Panicked
      else Returned (mkExpr (ReplaceAll v exprMask (str "?")) [])
  | VExpr f v => Returned (mkExpr f v)
  | _ => Panicked
  end.

(** The [for _, e := range exprs] loop of [Group]. *)
Fixpoint groupLoop (newFs : list gostring) (newV : list value) (exprs : list value)
  : outcome (list gostring * list value) :=
  match exprs with
  | [] => Returned (newFs, newV)
  | e :: rest =>
      match intfToExpr e with
      | Returned expr => groupLoop (newFs ++ [F expr]) (newV ++ V expr) rest
      | Panicked => Panicked
      | Diverged => Diverged
      end
  end.

(** [Group] *)
Definition Group (sep : gostring) (exprs : list value) : outcome Expr :=
  match groupLoop [] [] exprs with
  | Returned (newFs, newV) =>
      let pre := if 1 <? length exprs then str "(" else [] in
      let post := if 1 <? length exprs then str ")" else [] in
      Returned (mkExpr (pre ++ Join newFs sep ++ post) newV)
  | Panicked => Panicked
  | Diverged => Diverged
  end.

Definition And (exprs : list value) : outcome Expr := Group (str " AND ") exprs.
Definition Or (exprs : list value) : outcome Expr := Group (str " OR ") exprs.

(** The [for _, s := range exprs] loop of [exprsToSql]; every element goes
    through [intfToExpr] as an [interface{}]. *)
Fixpoint exprsToSqlLoop (qs : list gostring) (newP : list value) (exprs : list Expr)
  : outcome (list gostring * list value) :=
  match exprs with
  | [] => Returned (qs, newP)
  | s :: rest =>
      match intfToExpr (anyExpr s) with
      | Returned expr =>
          exprsToSqlLoop (qs ++ [F expr])
                         (if 0 <? length (V expr) then newP ++ V expr else newP) rest
      | Panicked => Panicked
      | Diverged => Diverged
      end
  end.

(** [exprsToSql] *)
Definition exprsToSql (exprs : list Expr) : outcome (list gostring * list value) :=
  exprsToSqlLoop [] [] exprs.

(** The [for _, intf := range exprs] loop of [getExprs]. *)
Fixpoint getExprsLoop (newExprs : list Expr) (exprs : list value) : outcome (list Expr) :=
  match exprs with
  | [] => Returned newExprs
  | intf :: rest =>
      match intfToExpr intf with
      | Returned expr => getExprsLoop (newExprs ++ [expr]) rest
      | Panicked => Panicked
      | Diverged => Diverged
      end
  end.

(** [getExprs] *)
Definition getExprs (exprs : list value) : outcome (list Expr) :=
  getExprsLoop [] exprs.

(** The [for n, expr := range group] loop of [exprGroup]; [len] is
    [len(group)]. *)
Fixpoint exprGroupInner (sql : gostring) (params : list value) (n len : nat)
         (group : list Expr) : gostring * list value :=
  match group with
  | [] => (sql, params)
  | expr :: rest =>
      let sql := sql ++ F expr in
      let params := params ++ V expr in
      let sql := if n + 1 <? len then sql ++ str " AND " else sql in
      exprGroupInner sql params (S n) len rest
  end.

(** The [for i, group := range exprs] loop of [exprGroup]; [len] is
    [len(exprs)]. *)
Fixpoint exprGroupOuter (sql : gostring) (params : list value) (i len : nat)
         (exprs : list (list Expr)) : gostring * list value :=
  match exprs with
  | [] => (sql, params)
  | group :: rest =>
      let sql := sql ++ str "(" in
      let '(sql, params) := exprGroupInner sql params 0 (length group) group in
      let sql := if i + 1 =? len then sql ++ str ") " else sql ++ str ") OR " in
      exprGroupOuter sql params (S i) len rest
  end.

(** [exprGroup] *)
Definition exprGroup (exprs : list (list Expr)) : gostring * list value :=
  if 0 <? length exprs then exprGroupOuter [] [] 0 (length exprs) exprs
  else ([], []).

(** What the contract of the token-scanning replacer asks for: the [i]-th
    non-overlapping occurrence of [marker], left to right, becomes [fn i];
    every other byte is copied. *)
Fixpoint subst_from (marker : gostring) (fn : nat -> gostring) (skip i : nat)
         (s : gostring) : gostring :=
  match s with
  | [] => []
  | c :: s' =>
      match skip with
      | S k => subst_from marker fn k i s'
      | O => if HasPrefix s marker
             then fn i ++ subst_from marker fn (length marker - 1) (S i) s'
             else c :: subst_from marker fn 0 i s'
      end
  end.

Definition replace_occurrences (marker : gostring) (fn : nat -> gostring)
           (s : gostring) : gostring :=
  subst_from marker fn 0 0 s.

(** ** Notions used in the statements *)

(** The first token of the remaining text [t], as an unbounded scanner
    would cut it. *)
Definition first_token (ph t : gostring) : gostring :=
  match Index t ph with
  | Some O => firstn (length ph) t
  | Some (S i) => firstn (S i) t
  | None => t
  end.

(** What bounds the rounds of one [Scan]: the bytes still to be read, and
    the end of input not seen yet. *)
Definition measure (s : Bufio.Scanner) : nat :=
  length (Bufio.rd s) + match Bufio.serr s with Some _ => 0 | None => 1 end.

(** Scanner states that still have the text [t] ahead of them. *)
Definition good (s : Bufio.Scanner) (t : gostring) : Prop :=
  Bufio.send s <= Bufio.buflen s /\ Bufio.buflen s <= Bufio.MaxScanTokenSize /\
  ((Bufio.serr s = None /\ Bufio.win s ++ Bufio.rd s = t) \/
   (Bufio.serr s = Some Bufio.EOF /\ Bufio.rd s = [] /\ Bufio.win s = t)).

(** A replacement function that never panics. *)
Definition total (fn : nat -> gostring) : replaceFn := fun i => Some (fn i).

(** A text of [MaxScanTokenSize] bytes without any marker: the scanner's
    buffer fills up before a token can be cut. *)
Definition long_text : gostring := repeat "a"%char Bufio.MaxScanTokenSize.

(** The fragment [Valf("x = ?", 5)] returns. *)
Definition inner_expr : Expr := mkExpr (str "x = xX_PARAM_Xx") [VInt KInt 5].

(** Two values of struct types, which [paramToRaw] does not know. *)
Definition unsupported1 : value := VOther (str "main.Point").
Definition unsupported2 : value := VOther (str "main.Shape").

(** The number of bytes [c] in [s]. *)
Definition occ (c : ascii) (s : gostring) : nat := count_occ ascii_dec s c.

(** [tempPh] begins and ends with [X]; its first six bytes tell it apart. *)
Definition tempPhCore : gostring := str "XXX___".

(** The bytes between the two ends of the placeholder token. *)
Definition paramCore : gostring := str "_PARAM_".

(** The values that reach the [default] case of [convertArg]. *)
Definition scalar (v : value) : bool :=
  match v with
  | VNil | VBool _ | VInt _ _ | VFloat _ | VString _ | VIntPtr _
  | VStringPtr _ | VExpr _ _ | VOther _ => true
  | _ => false
  end.

(** [n] times in a row, the first [?] becomes a placeholder token. *)
Fixpoint expand (n : nat) (text : gostring) : gostring :=
  match n with
  | O => text
  | S n' => expand n' (Replace1 text (str "?") paramPh)
  end.

(** The first [n] question marks become placeholder tokens, in one pass. *)
Fixpoint fill (n : nat) (s : gostring) : gostring :=
  match s with
  | [] => []
  | c :: s' =>
      match n with
      | O => s
      | S n' => if ascii_dec c "?" then paramPh ++ fill n' s' else c :: fill n s'
      end
  end.

(** The template read once, left to right: every escape [??] becomes [out],
    each of the first [n] other question marks becomes a placeholder token,
    and every other byte is copied. *)
Fixpoint render (out : gostring) (n skip : nat) (t : gostring) : gostring :=
  match t with
  | [] => []
  | c :: t' =>
      match skip with
      | S k => render out n k t'
      | O =>
          if HasPrefix t (str "??") then out ++ render out n 1 t'
          else if ascii_dec c "?" then
                 match n with
                 | O => c :: render out 0 0 t'
                 | S n' => paramPh ++ render out n' 0 t'
                 end
               else c :: render out n 0 t'
      end
  end.

(** The elements of a sequence argument, as the parameters they become. *)
Definition elements (arg : value) : option (list value) :=
  match arg with
  | VInts v => Some (map (VInt KInt) v)
  | VIntPtrs v => Some (map VIntPtr v)
  | VStrings v => Some (map VString v)
  | VStringPtrs v => Some (map VStringPtr v)
  | VAnys v => Some v
  | _ => None
  end.

(** The pieces of [s] between the non-overlapping occurrences of [marker],
    left to right. *)
Fixpoint pieces_from (marker : gostring) (skip : nat) (s : gostring) : list gostring :=
  match s with
  | [] => [[]]
  | c :: s' =>
      match skip with
      | S k => pieces_from marker k s'
      | O => if HasPrefix s marker
             then [] :: pieces_from marker (length marker - 1) s'
             else match pieces_from marker 0 s' with
                  | p :: ps => (c :: p) :: ps
                  | [] => [[c]]
                  end
      end
  end.

Definition pieces (marker s : gostring) : list gostring := pieces_from marker 0 s.

(** The pieces put together again with [fn i] after the [i]-th piece. *)
Fixpoint weave (fn : nat -> gostring) (i : nat) (ps : list gostring) : gostring :=
  match ps with
  | [] => []
  | [p] => p
  | p :: rest => p ++ fn i ++ weave fn (S i) rest
  end.

(** The numbered placeholder of the [i]-th occurrence. *)
Definition dollar (i : nat) : gostring := str "$" ++ fmt_nat (i + 1).

(** * Properties *)

(** No proper suffix of a given sentinel starts the sentinel again: by
    cases on the length of the suffix. *)
Ltac unbordered :=
  intros j [Hpos Hlt];
  repeat (destruct j as [|j]; [try lia; reflexivity|]);
  simpl in Hlt; lia.

(** ** Strings *)

Section StringFacts.

Lemma gostring_eqb_eq a b : gostring_eqb a b = true <-> a = b.
Proof.
  unfold gostring_eqb. destruct (list_eq_dec ascii_dec a b); split; congruence.
Qed.

Lemma gostring_eqb_refl a : gostring_eqb a a = true.
Proof. now apply gostring_eqb_eq. Qed.

Lemma HasPrefix_app p s : HasPrefix (p ++ s) p = true.
Proof.
  induction p as [|a p IH]; simpl; [reflexivity|].
  destruct (ascii_dec a a); [exact IH|congruence].
Qed.

Lemma HasPrefix_split s p :
  HasPrefix s p = true -> s = p ++ skipn (length p) s.
Proof.
  revert s; induction p as [|a p IH]; intros s H; simpl in *; [reflexivity|].
  destruct s as [|b s]; [discriminate|].
  destruct (ascii_dec a b); [|discriminate]. subst. now rewrite <- IH.
Qed.

Lemma HasPrefix_length s p : HasPrefix s p = true -> length p <= length s.
Proof.
  intros H. rewrite (HasPrefix_split _ _ H), length_app. lia.
Qed.

Lemma HasPrefix_firstn s p : HasPrefix s p = true -> firstn (length p) s = p.
Proof.
  intros H. rewrite (HasPrefix_split _ _ H) at 1.
  rewrite firstn_app, Nat.sub_diag, firstn_all. simpl. apply app_nil_r.
Qed.

Lemma HasPrefix_app_l s r p : HasPrefix s p = true -> HasPrefix (s ++ r) p = true.
Proof.
  intros H. rewrite (HasPrefix_split _ _ H), <- app_assoc. apply HasPrefix_app.
Qed.

(** A match that fits in the window does not depend on what follows. *)
Lemma HasPrefix_app_window s r p :
  length p <= length s -> HasPrefix (s ++ r) p = HasPrefix s p.
Proof.
  revert s; induction p as [|a p IH]; intros s H; simpl.
  - reflexivity.
  - destruct s as [|b s]; simpl in *; [lia|].
    destruct (ascii_dec a b); [apply IH; lia|reflexivity].
Qed.

Lemma Index_Some_0 s p : Index s p = Some 0 -> HasPrefix s p = true.
Proof.
  destruct s as [|c s]; simpl.
  - destruct (HasPrefix [] p); [reflexivity|discriminate].
  - destruct (HasPrefix (c :: s) p); [reflexivity|].
    destruct (Index s p); discriminate.
Qed.

Lemma Index_cons c s p :
  HasPrefix (c :: s) p = false -> Index (c :: s) p = option_map S (Index s p).
Proof. intros H. simpl Index. now rewrite H. Qed.

Lemma Index_bound s p i : Index s p = Some i -> i + length p <= length s.
Proof.
  revert i; induction s as [|c s IH]; intros i H.
  - simpl in H. destruct (HasPrefix [] p) eqn:E; [|discriminate].
    injection H as <-. apply HasPrefix_length in E. simpl in *; lia.
  - destruct (HasPrefix (c :: s) p) eqn:E.
    + simpl in H. rewrite E in H. injection H as <-.
      apply HasPrefix_length in E. simpl in *; lia.
    + rewrite (Index_cons _ _ _ E) in H.
      destruct (Index s p) as [j|]; [|discriminate]. injection H as <-.
      specialize (IH j eq_refl). simpl; lia.
Qed.

(** The first occurrence found in a window is the first occurrence in any
    extension of the window. *)
Lemma Index_app_window s r p i :
  Index s p = Some i -> Index (s ++ r) p = Some i.
Proof.
  revert i; induction s as [|c s IH]; intros i H.
  - simpl in H. destruct (HasPrefix [] p) eqn:E; [|discriminate].
    injection H as <-. destruct p; [|discriminate]. now destruct r.
  - destruct (HasPrefix (c :: s) p) eqn:E.
    + simpl in H. rewrite E in H. injection H as <-.
      apply (HasPrefix_app_l _ r) in E. simpl in *. now rewrite E.
    + rewrite (Index_cons _ _ _ E) in H.
      destruct (Index s p) as [j|] eqn:Ej; [|discriminate]. injection H as <-.
      pose proof (Index_bound _ _ Ej) as Hb.
      assert (HasPrefix ((c :: s) ++ r) p = false) as E'.
      { rewrite HasPrefix_app_window; [exact E|simpl; lia]. }
      simpl app in *. rewrite (Index_cons _ _ _ E'), (IH j eq_refl). reflexivity.
Qed.

End StringFacts.

(** ** The scanner *)

Section ScannerFacts.

Import Bufio.

Variable ph : gostring.
Hypothesis ph_nonempty : ph <> [].

Lemma ph_length : 0 < length ph.
Proof. destruct ph; [congruence|simpl; lia]. Qed.

Lemma first_token_prefix t :
  firstn (length (first_token ph t)) t = first_token ph t /\
  length (first_token ph t) <= length t.
Proof.
  unfold first_token. destruct (Index t ph) as [[|i]|] eqn:E.
  - apply Index_bound in E. rewrite length_firstn.
    rewrite Nat.min_l by lia. split; [reflexivity|lia].
  - apply Index_bound in E. rewrite length_firstn.
    rewrite Nat.min_l by lia. split; [reflexivity|lia].
  - split; [apply firstn_all|lia].
Qed.

Lemma first_token_pos t : t <> [] -> 0 < length (first_token ph t).
Proof.
  intros Ht. unfold first_token. destruct (Index t ph) as [[|i]|] eqn:E.
  - apply Index_bound in E. rewrite length_firstn. pose proof ph_length. lia.
  - apply Index_bound in E. rewrite length_firstn. lia.
  - destruct t; [congruence|simpl; lia].
Qed.

Lemma split_at_eof t :
  t <> [] ->
  scanSplit ph t true = (length (first_token ph t), Some (first_token ph t)).
Proof.
  intros Ht. unfold scanSplit, first_token.
  destruct t as [|c t]; [congruence|]. simpl andb. cbv iota.
  destruct (Index (c :: t) ph) as [[|i]|] eqn:E.
  - apply Index_bound in E. rewrite length_firstn, Nat.min_l by lia. reflexivity.
  - apply Index_bound in E. rewrite length_firstn, Nat.min_l by lia. reflexivity.
  - reflexivity.
Qed.

Lemma split_in_window w r :
  match scanSplit ph w false with
  | (adv, Some tok) =>
      tok = first_token ph (w ++ r) /\ adv = length tok /\ 0 < adv <= length w
  | (adv, None) => adv = 0
  end.
Proof.
  unfold scanSplit. simpl andb. cbv iota.
  destruct (Index w ph) as [[|i]|] eqn:E.
  - pose proof (Index_bound _ _ E) as Hb. pose proof ph_length.
    unfold first_token. rewrite (Index_app_window _ r _ E).
    rewrite firstn_app. replace (length ph - length w) with 0 by lia.
    rewrite firstn_O, app_nil_r, length_firstn, Nat.min_l by lia.
    repeat split; lia.
  - pose proof (Index_bound _ _ E) as Hb.
    unfold first_token. rewrite (Index_app_window _ r _ E).
    rewrite firstn_app. replace (S i - length w) with 0 by lia.
    rewrite firstn_O, app_nil_r, length_firstn, Nat.min_l by lia.
    repeat split; lia.
  - reflexivity.
Qed.

Lemma refill_at_eof s :
  serr s = Some EOF -> exists s', refill s = inr s' /\ Err s' = None.
Proof.
  intros H. unfold refill. rewrite H. simpl. eexists; split; [reflexivity|].
  unfold Err. simpl. reflexivity.
Qed.

Lemma buffer_sizes : 0 < startBufSize /\ 0 < MaxScanTokenSize.
Proof. split; apply Nat.ltb_lt; vm_compute; reflexivity. Qed.

Lemma shift_spec s t :
  good s t -> serr s = None ->
  good (shift s) t /\ measure (shift s) = measure s /\ serr (shift s) = None /\
  (send (shift s) = buflen (shift s) -> length (win (shift s)) = buflen (shift s)).
Proof.
  intros (Hse & Hmax & Hg) He. unfold shift, good, measure, send in *.
  destruct ((0 <? start s) && ((start s + length (win s) =? buflen s) || (buflen s / 2 <? start s))) eqn:E;
    simpl; rewrite ?He; repeat split; auto; try lia;
    try (destruct Hg as [(_ & Ht)|(Hc & _)]; [left; now split|congruence]).
  intros Heq. apply andb_false_iff in E. destruct E as [E|E].
  - apply Nat.ltb_ge in E. lia.
  - apply orb_false_iff in E. destruct E as [E _]. apply Nat.eqb_neq in E. lia.
Qed.

Lemma grow_spec s t :
  good s t -> serr s = None -> buflen s < MaxScanTokenSize ->
  good (grow s) t /\ measure (grow s) = measure s /\ serr (grow s) = None /\
  send (grow s) < buflen (grow s).
Proof.
  intros (Hse & Hmax & Hg) He Hlt. unfold grow, good, measure, send in *. simpl.
  assert (buflen s < Nat.min (if buflen s * 2 =? 0 then startBufSize else buflen s * 2)
                             MaxScanTokenSize <= MaxScanTokenSize) as Hn.
  { pose proof buffer_sizes. destruct (buflen s * 2 =? 0) eqn:E0.
    - apply Nat.eqb_eq in E0. lia.
    - apply Nat.eqb_neq in E0. lia. }
  repeat split; auto; lia.
Qed.

Lemma read_spec s t :
  good s t -> serr s = None -> send s < buflen s ->
  good (read s) t /\ measure (read s) < measure s.
Proof.
  intros (Hse & Hmax & Hg) He Hlt.
  destruct Hg as [(_ & Ht)|(Hc & _)]; [|congruence].
  unfold read.
  destruct (Nat.min (buflen s - send s) (length (rd s)) =? 0) eqn:En.
  - apply Nat.eqb_eq in En.
    destruct (rd s) eqn:Er; [|simpl in En; lia].
    unfold setErr, good, measure, send in *. rewrite He. simpl. rewrite Er.
    repeat split; auto; try (simpl; lia).
    right. repeat split. now rewrite app_nil_r in Ht.
  - apply Nat.eqb_neq in En.
    unfold good, measure, send in *. simpl.
    rewrite He, length_skipn, length_app, length_firstn.
    repeat split; try lia.
    left. split; [reflexivity|].
    now rewrite <- app_assoc, firstn_skipn.
Qed.

Lemma refill_reading s t :
  good s t -> serr s = None ->
  match refill s with
  | inl s' => good s' t /\ measure s' < measure s
  | inr s' => Err s' = Some ErrTooLong /\ MaxScanTokenSize <= length t
  end.
Proof.
  intros Hg He. unfold refill. rewrite He. simpl is_set. cbv iota.
  destruct (shift_spec Hg He) as (Hg1 & Hm1 & He1 & Hfull).
  destruct (send (shift s) =? buflen (shift s)) eqn:Efull.
  - apply Nat.eqb_eq in Efull. specialize (Hfull Efull).
    destruct (MaxScanTokenSize <=? buflen (shift s)) eqn:Emax.
    + apply Nat.leb_le in Emax. split.
      * unfold setErr, Err. rewrite He1. reflexivity.
      * destruct Hg1 as (_ & _ & [(_ & Ht)|(Hc & _)]); [|congruence].
        rewrite <- Ht, length_app. lia.
    + apply Nat.leb_gt in Emax.
      destruct (grow_spec Hg1 He1 Emax) as (Hg2 & Hm2 & He2 & Hlt).
      destruct (read_spec Hg2 He2 Hlt). split; [assumption|lia].
  - apply Nat.eqb_neq in Efull.
    assert (send (shift s) < buflen (shift s)) as Hlt.
    { destruct Hg1 as (Hle & _). lia. }
    destruct (read_spec Hg1 He1 Hlt). split; [assumption|lia].
Qed.

Lemma good_skip_window s t adv :
  good s t -> serr s = None -> adv <= length (win s) ->
  good (mkScanner (rd s) (buflen s) (start s + adv) (skipn adv (win s)) None 0)
       (skipn adv t).
Proof.
  intros (Hse & Hmax & Hg) He Ha.
  destruct Hg as [(_ & Ht)|(Hc & _)]; [|congruence].
  unfold good, send in *. simpl. rewrite length_skipn. repeat split; try lia.
  left. split; [reflexivity|]. subst t. rewrite skipn_app.
  replace (adv - length (win s)) with 0 by lia. reflexivity.
Qed.

(** One call of [Scan] on a state with [t] ahead: it returns the first token
    of [t], or stops because [t] is exhausted, or stops with [ErrTooLong],
    which takes at least [MaxScanTokenSize] bytes of remaining text. *)
Lemma Scan_spec fuel : forall s t,
  good s t -> measure s < fuel ->
  match Scan fuel (scanSplit ph) s with
  | Token s' tok => t <> [] /\ tok = first_token ph t /\ good s' (skipn (length tok) t)
  | Stop s' => (t = [] /\ Err s' = None) \/
               (Err s' = Some ErrTooLong /\ MaxScanTokenSize <= length t)
  | Panic | OutOfFuel => False
  end.
Proof.
  induction fuel as [|fuel IH]; intros s t Hg Hfuel; [lia|].
  assert (forall s1, good s1 t -> serr s1 = None -> measure s1 = measure s ->
            match (match refill s1 with
                   | inl s' => Scan fuel (scanSplit ph) s'
                   | inr s' => Stop s'
                   end) with
            | Token s' tok => t <> [] /\ tok = first_token ph t /\ good s' (skipn (length tok) t)
            | Stop s' => (t = [] /\ Err s' = None) \/
                         (Err s' = Some ErrTooLong /\ MaxScanTokenSize <= length t)
            | Panic | OutOfFuel => False
            end) as Hcont.
  { intros s1 Hg1 He1 Hm1. pose proof (refill_reading Hg1 He1) as Hr.
    destruct (refill s1) as [s'|s'].
    - destruct Hr as (Hg' & Hm'). apply IH; [assumption|lia].
    - right. exact Hr. }
  pose proof Hg as (Hse & Hmax & Hcase).
  destruct Hcase as [(He & Ht)|(He & Hrd & Ht)]; simpl Scan; rewrite He; simpl is_set.
  - rewrite orb_false_r. destruct (0 <? length (win s)) eqn:Ew.
    + apply Nat.ltb_lt in Ew. pose proof (split_in_window (win s) (rd s)) as Hsp.
      destruct (scanSplit ph (win s) false) as [adv [tok|]].
      * destruct Hsp as (Htok & Hadv & Hpos & Hle). rewrite Ht in Htok. subst adv.
        replace (length (win s) <? length tok) with false
          by (symmetry; apply Nat.ltb_ge; lia).
        simpl. split; [|split].
        -- intros ->. destruct (win s); simpl in *; [lia|discriminate].
        -- assumption.
        -- exact (good_skip_window Hg He Hle).
      * subst adv. simpl Nat.ltb. cbv iota.
        apply Hcont; [|reflexivity|unfold measure; simpl; now rewrite He].
        unfold good, send in *. simpl. repeat split; try lia. left. now split.
    + apply Hcont; [assumption..|reflexivity].
  - rewrite orb_true_r. subst t. destruct (win s) as [|c w] eqn:Ew.
    + simpl. left. unfold Err. simpl. now split.
    + rewrite split_at_eof by discriminate.
      pose proof (first_token_prefix (c :: w)) as (Hpre & Hle).
      pose proof (@first_token_pos (c :: w) ltac:(discriminate)) as Hpos.
      replace (length (c :: w) <? length (first_token ph (c :: w))) with false
        by (symmetry; apply Nat.ltb_ge; lia).
      replace (0 <? length (first_token ph (c :: w))) with true
        by (symmetry; apply Nat.ltb_lt; lia).
      simpl negb. simpl orb. cbv iota.
      split; [discriminate|split; [reflexivity|]].
      unfold good, send in *. cbn [rd buflen start win serr].
      rewrite length_skipn. rewrite Ew in Hse.
      split; [lia|split; [assumption|]].
      right. repeat split. assumption.
Qed.

(** *** The loop of [scanReplace] against the contract *)

Variable fn : nat -> gostring.

Lemma subst_from_skip k : forall i s,
  subst_from ph fn k i s = subst_from ph fn 0 i (skipn k s).
Proof.
  induction k as [|k IH]; intros i s; [reflexivity|].
  destruct s as [|c s]; [reflexivity|]. simpl. apply IH.
Qed.

Lemma subst_at_marker i t :
  HasPrefix t ph = true ->
  subst_from ph fn 0 i t = fn i ++ subst_from ph fn 0 (S i) (skipn (length ph) t).
Proof.
  intros H. destruct t as [|c t].
  - apply HasPrefix_length in H. pose proof ph_length. simpl in H. lia.
  - simpl subst_from. rewrite H, subst_from_skip.
    destruct ph as [|a p]; [congruence|]. simpl. now rewrite Nat.sub_0_r.
Qed.

Lemma subst_before_marker i : forall t k,
  Index t ph = Some k ->
  subst_from ph fn 0 i t = firstn k t ++ subst_from ph fn 0 i (skipn k t).
Proof.
  induction t as [|c t IH]; intros k H.
  - now destruct k.
  - destruct (HasPrefix (c :: t) ph) eqn:E.
    + simpl in H. rewrite E in H. injection H as <-. reflexivity.
    + rewrite (Index_cons _ _ _ E) in H.
      destruct (Index t ph) as [j|] eqn:Ej; [|discriminate]. injection H as <-.
      simpl subst_from. rewrite E. simpl. f_equal. now apply IH.
Qed.

Lemma subst_no_marker i : forall t,
  Index t ph = None -> subst_from ph fn 0 i t = t.
Proof.
  induction t as [|c t IH]; intros H; [reflexivity|].
  destruct (HasPrefix (c :: t) ph) eqn:E.
  - simpl in H. rewrite E in H. discriminate.
  - rewrite (Index_cons _ _ _ E) in H. simpl subst_from. rewrite E. f_equal.
    apply IH. now destruct (Index t ph).
Qed.

Lemma Index_HasPrefix t : HasPrefix t ph = true -> Index t ph = Some 0.
Proof. intros H. destruct t; simpl; now rewrite H. Qed.

(** The scanner's token is the marker exactly when the marker starts the
    remaining text, and the contract's output decomposes accordingly. *)
Lemma subst_first_token i t :
  t <> [] ->
  subst_from ph fn 0 i t =
  if gostring_eqb (first_token ph t) ph
  then fn i ++ subst_from ph fn 0 (S i) (skipn (length (first_token ph t)) t)
  else first_token ph t ++ subst_from ph fn 0 i (skipn (length (first_token ph t)) t).
Proof.
  intros Ht. unfold first_token. destruct (Index t ph) as [[|k]|] eqn:E.
  - pose proof (Index_Some_0 _ _ E) as Hp.
    rewrite (HasPrefix_firstn _ _ Hp), gostring_eqb_refl. now apply subst_at_marker.
  - pose proof (Index_bound _ _ E) as Hb.
    destruct (gostring_eqb (firstn (S k) t) ph) eqn:Eq.
    + apply gostring_eqb_eq in Eq.
      assert (HasPrefix t ph = true) as Hp.
      { rewrite <- (firstn_skipn (S k) t), Eq. apply HasPrefix_app. }
      rewrite (Index_HasPrefix _ Hp) in E. discriminate.
    + rewrite length_firstn, Nat.min_l by lia. now apply subst_before_marker.
  - destruct (gostring_eqb t ph) eqn:Eq.
    + apply gostring_eqb_eq in Eq. subst t.
      rewrite Index_HasPrefix in E; [discriminate|].
      rewrite <- (app_nil_r ph) at 1. apply HasPrefix_app.
    + rewrite skipn_all, app_nil_r. now apply subst_no_marker.
Qed.

Lemma scanLoop_S fuel s i sb :
  scanLoop (S fuel) ph (total fn) s i sb =
  match Scan (S (S (length (rd s)))) (scanSplit ph) s with
  | Token s' txt =>
      if gostring_eqb txt ph
      then scanLoop fuel ph (total fn) s' (S i) (sb ++ fn i)
      else scanLoop fuel ph (total fn) s' i (sb ++ txt)
  | Stop s' => Returned (sb, Err s')
  | Panic => Panicked
  | OutOfFuel => Diverged
  end.
Proof. reflexivity. Qed.

Lemma scanLoop_spec fuel : forall s t i sb,
  good s t -> length t < fuel ->
  exists out e,
    scanLoop fuel ph (total fn) s i sb = Returned (out, e) /\
    (e = None -> out = sb ++ subst_from ph fn 0 i t) /\
    (length t < MaxScanTokenSize -> e = None).
Proof.
  induction fuel as [|fuel IH]; intros s t i sb Hg Hfuel; [lia|].
  rewrite scanLoop_S.
  assert (measure s < S (S (length (rd s)))) as Hm.
  { unfold measure. destruct (serr s); lia. }
  pose proof (Scan_spec Hg Hm) as Hs.
  destruct (Scan (S (S (length (rd s)))) (scanSplit ph) s) as [s' tok|s'| |];
    try contradiction.
  - destruct Hs as (Hne & Htok & Hg').
    pose proof (first_token_pos Hne) as Hpos.
    pose proof (first_token_prefix t) as (_ & Hle).
    pose proof (subst_first_token i Hne) as Hsub.
    rewrite <- Htok in *.
    assert (length (skipn (length tok) t) < fuel) as Hfuel'
      by (rewrite length_skipn; lia).
    assert (length (skipn (length tok) t) <= length t) as Hshort
      by (rewrite length_skipn; lia).
    destruct (gostring_eqb tok ph).
    + destruct (IH s' _ (S i) (sb ++ fn i) Hg' Hfuel') as (out & e & Hrun & Hok & Hno).
      exists out, e. split; [exact Hrun|]. split.
      * intros He. rewrite (Hok He), Hsub, app_assoc. reflexivity.
      * intros Hlt. apply Hno. lia.
    + destruct (IH s' _ i (sb ++ tok) Hg' Hfuel') as (out & e & Hrun & Hok & Hno).
      exists out, e. split; [exact Hrun|]. split.
      * intros He. rewrite (Hok He), Hsub, app_assoc. reflexivity.
      * intros Hlt. apply Hno. lia.
  - exists sb, (Err s'). split; [reflexivity|].
    destruct Hs as [(-> & He)|(He & Hlong)].
    + split; [intros _; now rewrite app_nil_r|intros _; exact He].
    + split; [intros Hc; congruence|intros Hlt; simpl in *; lia].
Qed.

Lemma good_NewScanner stmt : good (NewScanner stmt) stmt.
Proof.
  unfold good, send. simpl. repeat split; try lia. left. now split.
Qed.

Lemma scanReplace_spec stmt :
  exists out e,
    scanReplace stmt ph (total fn) = Returned (out, e) /\
    (e = None -> out = replace_occurrences ph fn stmt) /\
    (length stmt < MaxScanTokenSize -> e = None).
Proof.
  unfold scanReplace.
  destruct (@scanLoop_spec (S (length stmt)) _ stmt 0 [] (good_NewScanner stmt))
    as (out & e & Hrun & Hok & Hno); [lia|].
  exists out, e. repeat split; assumption.
Qed.

End ScannerFacts.

(** ** Token-scanning replacer *)

Lemma scanReplace_long_text :
  scanReplace long_text (str "?") (fun _ => Some (str "$")) =
  Returned ([], Some Bufio.ErrTooLong).
Proof. vm_compute. reflexivity. Qed.

Lemma scanReplace_long_text_fails :
  Count long_text (str "?") = 0 /\
  ~ (exists out, scanReplace long_text (str "?") (fun _ => Some (str "$"))
                 = Returned (out, None)).
Proof.
  split; [vm_compute; reflexivity|].
  intros [out H]. rewrite scanReplace_long_text in H. discriminate.
Qed.

(** ** Argument conversion *)

(** C10: a nil [*Query] argument is bound like a scalar null: [convertArg]
    replaces the first [?] by one placeholder token, contributes the single
    parameter nil and no error; in the loop of [makePart] the nil is appended
    to the parameters gathered so far and the errors are left as they were. *)
Theorem convertArg_nil_query :
  (forall text,
     convertArg text (VQuery None) = (Replace1 text (str "?") paramPh, [VNil], [])) /\
  (forall text newArgs errs rest,
     convertArgs text newArgs errs (VQuery None :: rest) =
     convertArgs (Replace1 text (str "?") paramPh) (newArgs ++ [VNil]) errs rest) /\
  makePart (str "parent = ? and id = ?") [VQuery None; VInt KInt 7] =
  mkQueryPart (str "parent = xX_PARAM_Xx and id = xX_PARAM_Xx")
              [VNil; VInt KInt 7] [].
Proof.
  split; [reflexivity|]. split; [|vm_compute; reflexivity].
  intros. simpl. now rewrite app_nil_r.
Qed.

(** C6: an empty [[]int], [[]string] or [[]any] argument replaces its [?] by
    the empty string and binds nothing, both in [convertArg] and in [Valf];
    only the empty [[]*int] and [[]*string] get one placeholder token bound
    to nil. *)
Theorem empty_sequence_argument :
  (forall text,
     convertArg text (VInts []) = (Replace1 text (str "?") [], [], []) /\
     convertArg text (VStrings []) = (Replace1 text (str "?") [], [], []) /\
     convertArg text (VAnys []) = (Replace1 text (str "?") [], [], []) /\
     convertArg text (VIntPtrs []) = (Replace1 text (str "?") paramPh, [VNil], []) /\
     convertArg text (VStringPtrs []) = (Replace1 text (str "?") paramPh, [VNil], [])) /\
  makePart (str "id IN (?)") [VInts []] = mkQueryPart (str "id IN ()") [] [] /\
  makePart (str "id IN (?)") [VIntPtrs []] =
    mkQueryPart (str "id IN (xX_PARAM_Xx)") [VNil] [] /\
  Valf (str "id IN (?)") [VInts []] = Returned (mkExpr (str "id IN ()") []).
Proof.
  split; [intros; repeat split|].
  repeat split; vm_compute; reflexivity.
Qed.

(** C1: [Valf] called with one argument more than the template has
    placeholders returns normally a fragment with no placeholder token and
    one parameter; [makePart] reports the same call as a "missing ?" error.
    [makePart] in turn lets a surplus of tokens pass: its check is
    one-sided. *)
Theorem Valf_surplus_argument_unreported :
  Valf (str "x") [VInt KInt 1] = Returned (mkExpr (str "x") [VInt KInt 1]) /\
  Count (str "x") paramPh = 0 /\
  Errs (makePart (str "x") [VInt KInt 1]) = [MissingMark (str "x") 1] /\
  makePart (str "?") [VEmbedded paramPh] = mkQueryPart paramPh [] [].
Proof. repeat split; vm_compute; reflexivity. Qed.

(** ** Nested queries *)

(** [Valf("?", Valf("x = ?", 5))]: the inner expression is bound as one
    parameter, its text is not inlined and the parameter list is not [[5]]. *)
Lemma Valf_nested_not_flattened :
  Valf (str "x = ?") [VInt KInt 5] = Returned inner_expr /\
  Valf (str "?") [anyExpr inner_expr] =
    Returned (mkExpr paramPh [anyExpr inner_expr]) /\
  Valf (str "?") [anyExpr inner_expr] <> Returned inner_expr.
Proof.
  split; [vm_compute; reflexivity|].
  split; [vm_compute; reflexivity|].
  vm_compute. discriminate.
Qed.

(** C5 (amended): [makePart] splices the text that [toSql] of a non-nil
    nested [*Query] returns in place of the first remaining [?] and appends
    the parameters it returns after those gathered so far; when [toSql]
    fails its error is accumulated and nothing is appended.  [Valf] has no
    case for nested fragments: an [Expr] argument is bound as one ordinary
    parameter. *)
Theorem nested_query_inlined :
  (forall text sql params,
     convertArg text (VQuery (Some (sql, params, None))) =
     (Replace1 text (str "?") sql, params, [])) /\
  (forall text newArgs errs sql params rest,
     convertArgs text newArgs errs (VQuery (Some (sql, params, None)) :: rest) =
     convertArgs (Replace1 text (str "?") sql) (newArgs ++ params) errs rest) /\
  (forall text sql params msg,
     convertArg text (VQuery (Some (sql, params, Some msg))) =
     (Replace1 text (str "?") sql, [], [Foreign msg])) /\
  (forall newExpr e,
     valfArg newExpr (anyExpr e) = (Replace1 newExpr (str "?") paramPh, [anyExpr e])) /\
  makePart (str "a = ? AND b IN (?) AND c = ?")
           [VInt KInt 1; VQuery (Some (F inner_expr, V inner_expr, None)); VInt KInt 9] =
  mkQueryPart (str "a = xX_PARAM_Xx AND b IN (x = xX_PARAM_Xx) AND c = xX_PARAM_Xx")
              [VInt KInt 1; VInt KInt 5; VInt KInt 9] [].
Proof.
  split; [reflexivity|]. split; [intros; simpl; now rewrite app_nil_r|].
  split; [reflexivity|]. split; [reflexivity|]. vm_compute. reflexivity.
Qed.

(** ** Literal inlining *)

(** Two parameters that cannot be inlined: only the first failure comes
    back, and the text that comes with it is empty. *)
Lemma RAW_reports_first_failure_only :
  dialectReplace RAW (str "a = xX_PARAM_Xx AND b = xX_PARAM_Xx")
                 [unsupported1; unsupported2] =
  Returned ([], Some (UnsupportedRaw unsupported1)).
Proof. vm_compute. reflexivity. Qed.

Lemma rawParams_first_failure pre : forall p post e,
  Forall (fun q => snd (paramToRaw q) = None) pre ->
  snd (paramToRaw p) = Some e ->
  rawParams (pre ++ p :: post) = inr e.
Proof.
  induction pre as [|q pre IH]; intros p post e Hpre Hp; simpl.
  - destruct (paramToRaw p) as [r [e'|]]; simpl in Hp; congruence.
  - inversion Hpre as [|? ? Hq Hrest]; subst.
    destruct (paramToRaw q) as [r [e'|]]; simpl in Hq; [discriminate|].
    now rewrite (IH p post e Hrest Hp).
Qed.

(** C7 (amended): under the [RAW] dialect the first parameter, in list
    order, that [paramToRaw] cannot convert ends the rendering: the error
    returned is that parameter's error alone, later failures are not looked
    at, and the text returned with it is empty. *)
Theorem RAW_stops_at_first_failure sql pre p post e :
  Forall (fun q => snd (paramToRaw q) = None) pre ->
  snd (paramToRaw p) = Some e ->
  dialectReplace RAW sql (pre ++ p :: post) = Returned ([], Some e) /\
  e = UnsupportedRaw p.
Proof.
  intros Hpre Hp. split.
  - unfold dialectReplace. now rewrite (@rawParams_first_failure pre p post e Hpre Hp).
  - destruct p as [| | [] | | | [] | [] | | | | | | | | | | | | |];
      simpl in Hp; congruence.
Qed.

Lemma RAW_stops_at_first_failure_witness :
  dialectReplace RAW (str "a = xX_PARAM_Xx, b = xX_PARAM_Xx, c = xX_PARAM_Xx")
                 ([VInt KInt 4] ++ unsupported1 :: [unsupported2]) =
    Returned ([], Some (UnsupportedRaw unsupported1)) /\
  UnsupportedRaw unsupported1 = UnsupportedRaw unsupported1.
Proof.
  apply (@RAW_stops_at_first_failure _ [VInt KInt 4] unsupported1 [unsupported2]).
  - repeat constructor.
  - reflexivity.
Defined.

(** ** Masking and restoring escaped question marks *)

Section ReplaceFacts.

Variables old new : gostring.
Hypothesis old_nonempty : old <> [].

Lemma replace_from_skip k : forall s,
  replace_from old new k s = replace_from old new 0 (skipn k s).
Proof.
  induction k as [|k IH]; intros s; [reflexivity|].
  destruct s as [|c s]; [reflexivity|]. simpl. apply IH.
Qed.

Lemma replace_from_at s :
  HasPrefix s old = true ->
  replace_from old new 0 s = new ++ replace_from old new 0 (skipn (length old) s).
Proof.
  intros H. destruct s as [|c s].
  - apply HasPrefix_length in H. destruct old; [congruence|simpl in H; lia].
  - simpl replace_from. rewrite H, replace_from_skip.
    destruct old as [|a p]; [congruence|]. simpl. now rewrite Nat.sub_0_r.
Qed.

Lemma replace_from_nonempty s :
  new <> [] -> s <> [] -> replace_from old new 0 s <> [].
Proof.
  intros Hn Hs. destruct s as [|c s]; [congruence|]. simpl.
  destruct (HasPrefix (c :: s) old); [|discriminate].
  destruct new; [congruence|discriminate].
Qed.

End ReplaceFacts.

(** Replacing a string by itself changes nothing. *)
Lemma replace_from_same old : old <> [] -> forall s k,
  replace_from old old k s = skipn k s.
Proof.
  intros Hold. induction s as [|c s IH]; intros k.
  - now destruct k.
  - destruct k as [|k]; simpl; [|apply IH].
    destruct (HasPrefix (c :: s) old) eqn:E.
    + rewrite IH.
      transitivity (old ++ skipn (length old) (c :: s));
        [|symmetry; exact (HasPrefix_split _ _ E)].
      f_equal. destruct old as [|a p]; [congruence|]. simpl. now rewrite Nat.sub_0_r.
    + f_equal. apply (IH 0).
Qed.

Lemma skipn_head (T : gostring) j :
  j < length T -> exists t, skipn j T = t :: skipn (S j) T.
Proof.
  revert j; induction T as [|a T IH]; intros j Hj; simpl in Hj; [lia|].
  destruct j as [|j]; [now exists a|]. apply IH. lia.
Qed.

Lemma Index_None_cons c s p :
  Index (c :: s) p = None -> HasPrefix (c :: s) p = false /\ Index s p = None.
Proof.
  intros H. destruct (HasPrefix (c :: s) p) eqn:E.
  - simpl in H. rewrite E in H. discriminate.
  - split; [reflexivity|]. rewrite (Index_cons _ _ _ E) in H.
    now destruct (Index s p).
Qed.

Lemma HasPrefix_cons_inv c s p :
  p <> [] -> HasPrefix (c :: s) p = true ->
  HasPrefix s (skipn 1 p) = true /\ forall s', HasPrefix s' (skipn 1 p) = true ->
                                               HasPrefix (c :: s') p = true.
Proof.
  destruct p as [|a p]; [congruence|]. intros _. simpl.
  destruct (ascii_dec a c); [auto|discriminate].
Qed.

Lemma HasPrefix_trans s t c :
  HasPrefix s t = true -> HasPrefix t c = true -> HasPrefix s c = true.
Proof.
  intros Hst Htc. rewrite (HasPrefix_split _ _ Hst), (HasPrefix_split _ _ Htc).
  rewrite <- app_assoc. apply HasPrefix_app.
Qed.

Section MaskFacts.

(** [esc] is the escape ([??]), [T] the sentinel that masks it and [C] a
    prefix of the sentinel that tells it apart: no proper suffix of [C] is a
    prefix of [T]. *)
Variables esc T C : gostring.
Hypothesis C_nonempty : C <> [].
Hypothesis C_prefix : HasPrefix T C = true.
Hypothesis C_unbordered :
  forall j, 0 < j < length C -> HasPrefix T (skipn j C) = false.

Lemma T_nonempty : T <> [].
Proof.
  intros ->. apply HasPrefix_length in C_prefix.
  destruct C; [congruence|simpl in C_prefix; lia].
Qed.

Lemma masked_suffix_match : forall v j,
  0 < j < length C ->
  HasPrefix (replace_from esc T 0 v) (skipn j C) = true ->
  HasPrefix v (skipn j C) = true.
Proof.
  induction v as [|c v IH]; intros j Hj H.
  - destruct (skipn_head C (proj2 Hj)) as (t & Et). rewrite Et in *. exact H.
  - simpl replace_from in H. destruct (HasPrefix (c :: v) esc) eqn:E.
    + pose proof (HasPrefix_length _ _ C_prefix) as Hlen.
      rewrite HasPrefix_app_window in H by (rewrite length_skipn; lia).
      rewrite C_unbordered in H by assumption. discriminate.
    + destruct (skipn_head C (proj2 Hj)) as (t & Et). rewrite Et in *.
      cbn [HasPrefix] in H |- *. destruct (ascii_dec t c); [|discriminate].
      destruct (Nat.lt_ge_cases (S j) (length C)) as [Hlt|Hge].
      * apply (IH (S j)); [lia|exact H].
      * rewrite skipn_all2 by lia. reflexivity.
Qed.

(** Masking the escapes and then replacing the sentinel is replacing the
    escapes, for a text in which [C] does not occur. *)
Lemma unmask_mask new : forall v k,
  Index v C = None ->
  replace_from T new 0 (replace_from esc T k v) = replace_from esc new k v.
Proof.
  induction v as [|c v IH]; intros k Hno; [reflexivity|].
  destruct (Index_None_cons _ _ _ Hno) as (Hp & Hno').
  destruct k as [|k]; [|simpl; now apply IH].
  simpl replace_from at 2 3. destruct (HasPrefix (c :: v) esc) eqn:E.
  - rewrite (replace_from_at new T_nonempty) by apply HasPrefix_app.
    rewrite skipn_app, skipn_all, Nat.sub_diag. simpl. f_equal. now apply IH.
  - assert (HasPrefix (c :: replace_from esc T 0 v) T = false) as Hc.
    { destruct (HasPrefix (c :: replace_from esc T 0 v) T) eqn:Ec; [|reflexivity].
      exfalso. pose proof (HasPrefix_trans _ _ _ Ec C_prefix) as Ec'.
      destruct (HasPrefix_cons_inv _ _ C_nonempty Ec') as (Hy & Hback).
      assert (HasPrefix v (skipn 1 C) = true) as Hv.
      { destruct (Nat.lt_ge_cases 1 (length C)) as [Hlt|Hge].
        - apply masked_suffix_match; [lia|exact Hy].
        - rewrite skipn_all2 by lia. reflexivity. }
      rewrite (Hback _ Hv) in Hp. discriminate. }
    simpl replace_from at 1. rewrite Hc. f_equal. now apply IH.
Qed.

End MaskFacts.

(** ** Counting single bytes *)

Lemma occ_app c s r : occ c (s ++ r) = occ c s + occ c r.
Proof. apply count_occ_app. Qed.

Lemma Count_char c s : Count s [c] = occ c s.
Proof.
  unfold Count, occ. induction s as [|a s IH]; [reflexivity|].
  simpl. destruct (ascii_dec c a) as [->|Hn].
  - destruct (ascii_dec a a); [|congruence]. now rewrite IH.
  - destruct (ascii_dec a c); [congruence|]. exact IH.
Qed.

Lemma Index_char_None c s : Index s [c] = None -> occ c s = 0.
Proof.
  induction s as [|a s IH]; intros H; [reflexivity|].
  destruct (Index_None_cons _ _ _ H) as (Hp & Hs). unfold occ in *. simpl in *.
  destruct (ascii_dec c a) as [->|Hn]; [discriminate|].
  destruct (ascii_dec a c); [congruence|]. now apply IH.
Qed.

Lemma Index_char_Some c : forall s i,
  Index s [c] = Some i ->
  s = firstn i s ++ c :: skipn (S i) s /\ occ c (firstn i s) = 0.
Proof.
  induction s as [|a s IH]; intros i H; [discriminate|].
  destruct (HasPrefix (a :: s) [c]) eqn:E.
  - rewrite (Index_HasPrefix _ _ E) in H. injection H as <-.
    simpl in E. destruct (ascii_dec c a); [subst|discriminate]. now split.
  - rewrite (Index_cons _ _ _ E) in H.
    destruct (Index s [c]) as [j|] eqn:Ej; [|discriminate]. injection H as <-.
    destruct (IH j eq_refl) as (Hs & Hz). split.
    + simpl. f_equal. exact Hs.
    + unfold occ in *. simpl in *. destruct (ascii_dec c a); [discriminate|].
      destruct (ascii_dec a c); [congruence|exact Hz].
Qed.

Lemma Contains_char c s : Contains s [c] = negb (occ c s =? 0).
Proof.
  unfold Contains. destruct (Index s [c]) as [i|] eqn:E.
  - destruct (Index_char_Some _ _ E) as (Hs & _). rewrite Hs, occ_app.
    unfold occ at 2. simpl. destruct (ascii_dec c c); [|congruence].
    symmetry. apply negb_true_iff, Nat.eqb_neq. lia.
  - now rewrite (Index_char_None _ _ E).
Qed.

(** Replacing the first [c] by a text [r]: one [c] less, and the bytes of
    [r] more. *)
Lemma occ_Replace1 c d s r :
  occ d (Replace1 s [c] r) =
  if Contains s [c]
  then occ d s + occ d r - (if ascii_dec c d then 1 else 0)
  else occ d s.
Proof.
  unfold Replace1, Contains. destruct (Index s [c]) as [i|] eqn:E; [|reflexivity].
  destruct (Index_char_Some _ _ E) as (Hs & _).
  assert (occ d s = occ d (firstn i s) + (if ascii_dec c d then 1 else 0)
                    + occ d (skipn (S i) s)) as Hd.
  { rewrite Hs at 1. rewrite occ_app. unfold occ. simpl.
    destruct (ascii_dec c d); lia. }
  rewrite !occ_app. simpl length. rewrite Nat.add_1_r, Hd.
  destruct (ascii_dec c d); lia.
Qed.

(** Replacing [old] by [new] all over leaves the number of [c] as it was
    when neither string holds a [c]. *)
Lemma occ_replace_from c old new :
  old <> [] -> occ c old = 0 -> occ c new = 0 -> forall s k,
  occ c (replace_from old new k s) = occ c (skipn k s).
Proof.
  intros Hne Ho Hn. induction s as [|a s IH]; intros k.
  - now destruct k.
  - destruct k as [|k]; simpl; [|apply IH].
    destruct (HasPrefix (a :: s) old) eqn:E.
    + rewrite occ_app, Hn, IH. simpl.
      pose proof (HasPrefix_split _ _ E) as Hs.
      destruct old as [|b p]; [congruence|].
      simpl in *. rewrite Nat.sub_0_r.
      injection Hs as -> Hs.
      assert (occ c s = occ c p + occ c (skipn (length p) s)) as Hd
        by (rewrite Hs at 1; apply occ_app).
      destruct (ascii_dec b c); [discriminate|]. lia.
    + unfold occ in *. simpl. destruct (ascii_dec a c); [f_equal|]; apply (IH 0).
Qed.

(** Non-overlapping occurrences of [sub] are at most as many as the
    occurrences of any byte of [sub]. *)
Lemma count_from_le_occ c sub :
  0 < occ c sub -> forall s k, count_from sub k s <= occ c (skipn k s).
Proof.
  intros Hc. induction s as [|a s IH]; intros k.
  - now destruct k.
  - destruct k as [|k]; simpl; [|apply IH].
    destruct (HasPrefix (a :: s) sub) eqn:E.
    + pose proof (HasPrefix_split _ _ E) as Hs. specialize (IH (length sub - 1)).
      destruct sub as [|b p]; [unfold occ in Hc; simpl in Hc; lia|].
      simpl in Hs, IH. rewrite Nat.sub_0_r in IH. injection Hs as -> Hs.
      assert (occ c s = occ c p + occ c (skipn (length p) s)) as Hd
        by (rewrite Hs at 1; apply occ_app).
      replace (length (b :: p) - 1) with (length p) by (simpl; lia).
      unfold occ in Hc. simpl in Hc. fold (occ c p) in Hc.
      destruct (ascii_dec b c); lia.
    + specialize (IH 0). simpl in IH. unfold occ in *. simpl.
      destruct (ascii_dec a c); lia.
Qed.

(** ** The three sentinels *)

Lemma exprMask_unbordered :
  forall j, 0 < j < length exprMask -> HasPrefix exprMask (skipn j exprMask) = false.
Proof. unbordered. Qed.

Lemma tmpQ_unbordered :
  forall j, 0 < j < length tmpQ -> HasPrefix tmpQ (skipn j tmpQ) = false.
Proof. unbordered. Qed.

Lemma tempPhCore_unbordered :
  forall j, 0 < j < length tempPhCore -> HasPrefix tempPh (skipn j tempPhCore) = false.
Proof. unbordered. Qed.

Lemma nonempty_str (s : gostring) : 0 < length s -> s <> [].
Proof. destruct s; simpl; [lia|discriminate]. Qed.

Lemma exprMask_roundtrip new v k :
  Index v exprMask = None ->
  replace_from exprMask new 0 (replace_from (str "??") exprMask k v) =
  replace_from (str "??") new k v.
Proof.
  apply unmask_mask; [discriminate|reflexivity|exact exprMask_unbordered].
Qed.

Lemma tmpQ_roundtrip new v k :
  Index v tmpQ = None ->
  replace_from tmpQ new 0 (replace_from (str "??") tmpQ k v) =
  replace_from (str "??") new k v.
Proof.
  apply unmask_mask; [discriminate|reflexivity|exact tmpQ_unbordered].
Qed.

Lemma tempPh_roundtrip new v k :
  Index v tempPhCore = None ->
  replace_from tempPh new 0 (replace_from (str "??") tempPh k v) =
  replace_from (str "??") new k v.
Proof.
  apply unmask_mask; [discriminate|reflexivity|exact tempPhCore_unbordered].
Qed.

(** ** String arguments of [Group] *)

Lemma groupLoop_panics : forall exprs newFs newV e,
  In e exprs -> intfToExpr e = Panicked -> groupLoop newFs newV exprs = Panicked.
Proof.
  induction exprs as [|x exprs IH]; intros newFs newV e Hin Hp; [contradiction|].
  simpl. destruct Hin as [->|Hin].
  - now rewrite Hp.
  - destruct (intfToExpr x) as [expr| |] eqn:Ex; [|reflexivity|].
    + now apply IH with e.
    + destruct x; simpl in Ex; try discriminate.
      destruct (Contains _ _); discriminate.
Qed.

(** An accepted string does not keep its text: each escape [??] comes out
    as a single [?]. *)
Lemma Group_unescapes_string :
  Group (str " AND ") [VString (str "a ?? b")] = Returned (mkExpr (str "a ? b") []) /\
  Group (str " AND ") [VString (str "a ?? b")] <> Returned (mkExpr (str "a ?? b") []).
Proof. split; [vm_compute; reflexivity|vm_compute; discriminate]. Qed.

(** C9 (amended): a plain string among the arguments of [Group] (hence of
    [And] and [Or]) that still holds a [?] once its [??] pairs are masked
    makes the call panic, and no expression is returned.  A string whose
    question marks all belong to [??] pairs is accepted, and its text is
    kept except that every [??] becomes a single [?] (for a string in which
    the mask [xXxXy__] does not occur). *)
Theorem Group_string_argument sep exprs v :
  In (VString v) exprs ->
  (Contains (ReplaceAll v (str "??") exprMask) (str "?") = true ->
   Group sep exprs = Panicked /\ And exprs = Panicked /\ Or exprs = Panicked) /\
  (Contains (ReplaceAll v (str "??") exprMask) (str "?") = false ->
   Contains v exprMask = false ->
   intfToExpr (VString v) = Returned (mkExpr (ReplaceAll v (str "??") (str "?")) []) /\
   Group sep [VString v] = Returned (mkExpr (ReplaceAll v (str "??") (str "?")) [])).
Proof.
  intros Hin. split.
  - intros Hq.
    assert (intfToExpr (VString v) = Panicked) as Hp
      by (unfold intfToExpr; cbv zeta; now rewrite Hq).
    unfold And, Or, Group. now rewrite !(groupLoop_panics _ _ _ _ Hin Hp).
  - intros Hq Hm.
    assert (intfToExpr (VString v)
            = Returned (mkExpr (ReplaceAll v (str "??") (str "?")) [])) as Hr.
    { unfold intfToExpr. cbv zeta. rewrite Hq. unfold ReplaceAll.
      rewrite exprMask_roundtrip; [reflexivity|].
      unfold Contains in Hm. now destruct (Index v exprMask). }
    split; [exact Hr|]. unfold Group. cbn [groupLoop]. rewrite Hr.
    cbn. now rewrite app_nil_r.
Qed.

Lemma Group_string_argument_witness :
  Group (str ", ") [VString (str "a = 1"); VString (str "b = ?")] = Panicked /\
  Group (str ", ") [VString (str "c ?? d")] = Returned (mkExpr (str "c ? d") []).
Proof.
  split.
  - apply (@Group_string_argument (str ", ")
             [VString (str "a = 1"); VString (str "b = ?")] (str "b = ?")).
    + right. left. reflexivity.
    + reflexivity.
  - apply (@Group_string_argument (str ", ") [VString (str "c ?? d")] (str "c ?? d")).
    + left. reflexivity.
    + reflexivity.
    + reflexivity.
Defined.

(** ** Escaped question marks in the formatted-fragment builders *)

Lemma occ_mask_indep c esc T T' :
  occ c T = 0 -> occ c T' = 0 -> forall s k,
  occ c (replace_from esc T k s) = occ c (replace_from esc T' k s).
Proof.
  intros HT HT'. induction s as [|a s IH]; intros k; [reflexivity|].
  destruct k as [|k]; simpl; [|apply IH].
  destruct (HasPrefix (a :: s) esc).
  - rewrite !occ_app, HT, HT'. apply IH.
  - unfold occ in *. simpl. destruct (ascii_dec a c); [f_equal|]; apply (IH 0).
Qed.

Lemma Contains_None s p : Contains s p = false -> Index s p = None.
Proof. unfold Contains. now destruct (Index s p). Qed.

(** [makePart] hands the escape back as [??]; only the [PGSQL] rendering
    reduces it to [?]. *)
Lemma makePart_keeps_double_question_mark :
  Text (makePart (str "?? and ?") [VInt KInt 1]) = str "?? and xX_PARAM_Xx" /\
  Text (makePart (str "?? and ?") [VInt KInt 1]) <> str "? and xX_PARAM_Xx" /\
  dialectReplace MYSQL (Text (makePart (str "?? and ?") [VInt KInt 1])) [VInt KInt 1]
    = Returned (str "?? and ?", None).
Proof.
  split; [vm_compute; reflexivity|].
  split; [vm_compute; discriminate|vm_compute; reflexivity].
Qed.

(** ** Scalar arguments *)

Lemma convertArgs_scalar : forall args text newArgs errs,
  Forall (fun a => scalar a = true) args ->
  convertArgs text newArgs errs args = (expand (length args) text, newArgs ++ args, errs).
Proof.
  induction args as [|a args IH]; intros text newArgs errs Hs.
  - simpl. now rewrite app_nil_r.
  - inversion Hs as [|? ? Ha Hrest]; subst.
    assert (convertArg text a = (Replace1 text (str "?") paramPh, [a], [])) as Hc
      by (destruct a; try discriminate; reflexivity).
    cbn [convertArgs length expand]. rewrite Hc, IH by assumption.
    now rewrite app_nil_r, <- app_assoc.
Qed.

Lemma valfArgs_scalar : forall vals newExpr params,
  Forall (fun a => scalar a = true) vals ->
  valfArgs newExpr params vals = (expand (length vals) newExpr, params ++ vals).
Proof.
  induction vals as [|a vals IH]; intros newExpr params Hs.
  - simpl. now rewrite app_nil_r.
  - inversion Hs as [|? ? Ha Hrest]; subst.
    assert (valfArg newExpr a = (Replace1 newExpr (str "?") paramPh, [a])) as Hc
      by (destruct a; try discriminate; reflexivity).
    cbn [valfArgs length expand]. rewrite Hc, IH by assumption.
    now rewrite <- app_assoc.
Qed.

Lemma occ_question_Replace1 s :
  occ "?" (Replace1 s (str "?") paramPh) = occ "?" s - 1.
Proof.
  change (str "?") with ["?"%char]. rewrite occ_Replace1, Contains_char.
  change (occ "?" paramPh) with 0.
  destruct (occ "?" s =? 0) eqn:E; simpl.
  - apply Nat.eqb_eq in E. lia.
  - destruct (ascii_dec "?" "?"); [lia|congruence].
Qed.

Lemma occ_question_expand n : forall s, occ "?" (expand n s) = occ "?" s - n.
Proof.
  induction n as [|n IH]; intros s; simpl; [lia|].
  rewrite IH, occ_question_Replace1. lia.
Qed.

Lemma Replace1_nonempty s c r : s <> [] -> r <> [] -> Replace1 s [c] r <> [].
Proof.
  intros Hs Hr. unfold Replace1. destruct (Index s [c]); [|exact Hs].
  intros H. apply app_eq_nil in H. destruct H as (_ & H).
  apply app_eq_nil in H. destruct H. congruence.
Qed.

Lemma expand_nonempty n : forall s, s <> [] -> expand n s <> [].
Proof.
  induction n as [|n IH]; intros s Hs; simpl; [exact Hs|].
  apply IH. apply Replace1_nonempty; [exact Hs|discriminate].
Qed.

Lemma Replace1_cons c s r :
  Replace1 (c :: s) (str "?") r =
  if ascii_dec c "?" then r ++ s else c :: Replace1 s (str "?") r.
Proof.
  unfold Replace1. destruct (ascii_dec c "?") as [->|Hn].
  - reflexivity.
  - assert (HasPrefix (c :: s) (str "?") = false) as E.
    { simpl. destruct (ascii_dec "?" c); [congruence|reflexivity]. }
    rewrite (Index_cons _ _ _ E). now destruct (Index s (str "?")).
Qed.

Lemma expand_nil n : expand n [] = [].
Proof. induction n; simpl; auto. Qed.

Lemma expand_cons n : forall c s,
  c <> "?"%char -> expand n (c :: s) = c :: expand n s.
Proof.
  induction n as [|n IH]; intros c s Hc; [reflexivity|].
  simpl. rewrite Replace1_cons. destruct (ascii_dec c "?"); [congruence|].
  now apply IH.
Qed.

Lemma expand_token n s : expand n (paramPh ++ s) = paramPh ++ expand n s.
Proof.
  unfold paramPh. simpl. now rewrite !expand_cons by discriminate.
Qed.

Lemma expand_fill : forall s n, expand n s = fill n s.
Proof.
  induction s as [|c s IH]; intros n.
  - rewrite expand_nil. now destruct n.
  - destruct n as [|n]; [reflexivity|].
    cbn [expand fill]. rewrite Replace1_cons. destruct (ascii_dec c "?").
    + now rewrite expand_token, IH.
    + rewrite expand_cons by assumption. f_equal. apply (IH (S n)).
Qed.

Lemma fill_0 s : fill 0 s = s.
Proof. now destruct s. Qed.

Lemma Index_None_skipn p : forall s k, Index s p = None -> Index (skipn k s) p = None.
Proof.
  induction s as [|c s IH]; intros k H; [now destruct k|].
  destruct k as [|k]; [exact H|]. simpl. apply IH.
  now destruct (Index_None_cons _ _ _ H).
Qed.

Lemma Index_None_HasPrefix s p : Index s p = None -> HasPrefix s p = false.
Proof.
  intros H. destruct (HasPrefix s p) eqn:E; [|reflexivity].
  rewrite (Index_HasPrefix _ _ E) in H. discriminate.
Qed.

Lemma fill_core_match : forall s n j,
  j < length paramCore ->
  HasPrefix (fill n s) (skipn j paramCore) = true ->
  HasPrefix s (skipn j paramCore) = true.
Proof.
  induction s as [|c s IH]; intros n j Hj H; [exact H|].
  destruct n as [|n]; [exact H|].
  cbn [fill] in H. destruct (ascii_dec c "?").
  - exfalso. clear -Hj H.
    do 7 (destruct j as [|j]; [simpl in H; discriminate|]). simpl in Hj. lia.
  - destruct (skipn_head paramCore Hj) as (t & Et). rewrite Et in *.
    cbn [HasPrefix] in H |- *. destruct (ascii_dec t c); [|discriminate].
    destruct (Nat.lt_ge_cases (S j) (length paramCore)) as [Hlt|Hge].
    + apply (IH (S n) (S j)); [lia|exact H].
    + rewrite skipn_all2 by lia. reflexivity.
Qed.

(** Where the expanded text shows a placeholder token, either a [?] was
    expanded there or the text before expansion held the core of a token
    two bytes further. *)
Lemma fill_token_origin n s :
  HasPrefix (fill n s) paramPh = true ->
  HasPrefix s (str "?") = true \/ HasPrefix (skipn 2 s) paramCore = true.
Proof.
  intros H. destruct s as [|c s]; [discriminate|].
  destruct n as [|n].
  - right. change (fill 0 (c :: s)) with (c :: s) in H.
    rewrite (HasPrefix_split _ _ H). reflexivity.
  - cbn [fill] in H. destruct (ascii_dec c "?") as [->|Hc]; [now left|right].
    destruct s as [|c1 s]; [simpl in H; destruct (ascii_dec "x" c); discriminate|].
    cbn [fill] in H. destruct (ascii_dec c1 "?") as [->|Hc1].
    + simpl in H. destruct (ascii_dec "x" c); discriminate.
    + simpl skipn. apply (@fill_core_match s (S n) 0); [simpl; lia|].
      simpl in H. destruct (ascii_dec "x" c); [|discriminate].
      destruct (ascii_dec "X" c1); [|discriminate].
      apply HasPrefix_trans with (str "_PARAM_Xx"); [exact H|reflexivity].
Qed.

Lemma count_from_skip sub k : forall s,
  count_from sub k s = count_from sub 0 (skipn k s).
Proof.
  induction k as [|k IH]; intros s; [reflexivity|].
  destruct s as [|c s]; [reflexivity|]. simpl. apply IH.
Qed.

Lemma count_from_at sub s :
  sub <> [] -> count_from sub 0 (sub ++ s) = S (count_from sub 0 s).
Proof.
  intros Hs. destruct sub as [|a p]; [congruence|].
  change ((a :: p) ++ s) with (a :: (p ++ s)). cbn [count_from].
  change (a :: p ++ s) with ((a :: p) ++ s). rewrite HasPrefix_app, count_from_skip.
  replace (length (a :: p) - 1) with (length p) by (simpl; lia).
  rewrite skipn_app, skipn_all, Nat.sub_diag. reflexivity.
Qed.

(** In a text that does not hold the core of a token, expansion creates no
    more tokens than there were question marks. *)
Lemma Count_fill : forall s n,
  Index s paramCore = None ->
  Count (fill n s) paramPh <= occ "?" s.
Proof.
  unfold Count. induction s as [|c s IH]; intros n Hno; [reflexivity|].
  destruct (Index_None_cons _ _ _ Hno) as (_ & Hno').
  assert (HasPrefix (skipn 2 (c :: s)) paramCore = false) as Hcore
    by (apply Index_None_HasPrefix, Index_None_skipn, Hno).
  destruct (ascii_dec c "?") as [->|Hc].
  - destruct n as [|n].
    + assert (HasPrefix ("?"%char :: s) paramPh = false) as Hp by reflexivity.
      cbn [fill count_from]. rewrite Hp. specialize (IH 0 Hno').
      rewrite fill_0 in IH. unfold occ in *. simpl. lia.
    + cbn [fill]. destruct (ascii_dec "?" "?"); [|congruence].
      rewrite count_from_at by discriminate. specialize (IH n Hno').
      unfold occ in *. simpl. lia.
  - assert (HasPrefix (fill n (c :: s)) paramPh = false) as Hp.
    { destruct (HasPrefix (fill n (c :: s)) paramPh) eqn:E; [|reflexivity].
      destruct (fill_token_origin _ _ E) as [Hq|Hk]; [|congruence].
      simpl in Hq. destruct (ascii_dec "?" c); [congruence|discriminate]. }
    assert (fill n (c :: s) = c :: fill n s) as Hf.
    { destruct n; [now destruct s|]. cbn [fill].
      destruct (ascii_dec c "?"); [congruence|reflexivity]. }
    rewrite Hf in *. cbn [count_from]. rewrite Hp. specialize (IH n Hno').
    unfold occ in *. simpl. destruct (ascii_dec c "?"); [congruence|lia].
Qed.

Lemma mask_core_match : forall v j,
  j < length paramCore ->
  HasPrefix (replace_from (str "??") tempPh 0 v) (skipn j paramCore) = true ->
  HasPrefix v (skipn j paramCore) = true.
Proof.
  induction v as [|c v IH]; intros j Hj H; [exact H|].
  cbn [replace_from] in H. destruct (HasPrefix (c :: v) (str "??")).
  - exfalso. clear -Hj H.
    do 7 (destruct j as [|j]; [vm_compute in H; discriminate|]). simpl in Hj. lia.
  - destruct (skipn_head paramCore Hj) as (t & Et). rewrite Et in *.
    cbn [HasPrefix] in H |- *. destruct (ascii_dec t c); [|discriminate].
    destruct (Nat.lt_ge_cases (S j) (length paramCore)) as [Hlt|Hge].
    + apply (IH (S j)); [lia|exact H].
    + rewrite skipn_all2 by lia. reflexivity.
Qed.

Lemma Index_app_None p s : forall a,
  (forall i, i < length a -> HasPrefix (skipn i a ++ s) p = false) ->
  Index s p = None -> Index (a ++ s) p = None.
Proof.
  induction a as [|c a IH]; intros Ha Hs; [exact Hs|].
  pose proof (Ha 0 ltac:(simpl; lia)) as H0. simpl skipn in H0.
  change ((c :: a) ++ s) with (c :: (a ++ s)) in *.
  rewrite (Index_cons _ _ _ H0), IH; [reflexivity| |exact Hs].
  intros i Hi. apply (Ha (S i)). simpl. lia.
Qed.

Lemma Index_tempPh_app s :
  Index s paramCore = None -> Index (tempPh ++ s) paramCore = None.
Proof.
  apply Index_app_None. intros i Hi.
  do 9 (destruct i as [|i]; [reflexivity|]). simpl in Hi. lia.
Qed.

(** Masking the escapes of a template does not bring the core of a
    placeholder token into it. *)
Lemma mask_keeps_core_out : forall v k,
  Index v paramCore = None ->
  Index (replace_from (str "??") tempPh k v) paramCore = None.
Proof.
  induction v as [|c v IH]; intros k Hno; [now destruct k|].
  destruct (Index_None_cons _ _ _ Hno) as (Hp & Hno').
  destruct k as [|k]; [|simpl; now apply IH].
  cbn [replace_from]. destruct (HasPrefix (c :: v) (str "??")).
  - apply Index_tempPh_app. now apply IH.
  - assert (HasPrefix (c :: replace_from (str "??") tempPh 0 v) paramCore = false) as Hc.
    { destruct (HasPrefix (c :: replace_from (str "??") tempPh 0 v) paramCore) eqn:Ec;
        [|reflexivity].
      exfalso.
      destruct (@HasPrefix_cons_inv c _ paramCore ltac:(discriminate) Ec) as (Hy & Hback).
      rewrite (Hback v) in Hp; [discriminate|].
      apply (@mask_core_match v 1); [simpl; lia|exact Hy]. }
    rewrite (Index_cons _ _ _ Hc), (IH 0 Hno'). reflexivity.
Qed.

(** ** Expansion between masking and restoring *)

Lemma fill_free p : occ "?" p = 0 -> forall n s, fill n (p ++ s) = p ++ fill n s.
Proof.
  induction p as [|a p IH]; intros Hp n s; [reflexivity|].
  unfold occ in *. simpl in Hp. destruct (ascii_dec a "?") as [|Ha]; [discriminate|].
  destruct n as [|n]; [now rewrite !fill_0|].
  change ((a :: p) ++ s) with (a :: (p ++ s)). cbn [fill].
  destruct (ascii_dec a "?"); [congruence|]. cbn [app]. f_equal. now apply IH.
Qed.

Lemma render_0 out : forall t k,
  render out 0 k t = replace_from (str "??") out k t.
Proof.
  induction t as [|c t IH]; intros k; [reflexivity|].
  destruct k as [|k]; cbn [render replace_from]; [|apply IH].
  destruct (HasPrefix (c :: t) (str "??")).
  - now rewrite IH.
  - destruct (ascii_dec c "?"); now rewrite IH.
Qed.

Section RenderFacts.

(** [T] is the sentinel that masks the escapes, [C] the prefix that tells
    it apart, [out] what the sentinel is replaced by at the end. *)
Variables T C out : gostring.
Hypothesis C_nonempty : C <> [].
Hypothesis C_prefix : HasPrefix T C = true.
Hypothesis C_unbordered :
  forall j, 0 < j < length C -> HasPrefix T (skipn j C) = false.
Hypothesis T_free : occ "?" T = 0.
(** No sentinel starts inside a placeholder token, and no placeholder token
    continues a sentinel. *)
Hypothesis T_token :
  forall i X, i < length paramPh -> HasPrefix (skipn i paramPh ++ X) T = false.
Hypothesis C_token :
  forall j X, 0 < j < length C -> HasPrefix (paramPh ++ X) (skipn j C) = false.

Lemma restore_free : forall p Z,
  (forall i, i < length p -> HasPrefix (skipn i p ++ Z) T = false) ->
  replace_from T out 0 (p ++ Z) = p ++ replace_from T out 0 Z.
Proof.
  induction p as [|a p IH]; intros Z Hp; [reflexivity|].
  pose proof (Hp 0 ltac:(simpl; lia)) as H0. cbn [skipn] in H0.
  change ((a :: p) ++ Z) with (a :: (p ++ Z)) in *. cbn [replace_from].
  rewrite H0. cbn [app]. f_equal. apply IH. intros i Hi. apply (Hp (S i)). simpl. lia.
Qed.

Lemma expanded_suffix_match : forall v n j,
  0 < j < length C ->
  HasPrefix (fill n (replace_from (str "??") T 0 v)) (skipn j C) = true ->
  HasPrefix v (skipn j C) = true.
Proof.
  induction v as [|c v IH]; intros n j Hj H.
  - destruct n; exact H.
  - destruct n as [|n].
    + rewrite fill_0 in H. eapply masked_suffix_match; eassumption.
    + cbn [replace_from] in H. destruct (HasPrefix (c :: v) (str "??")).
      * rewrite fill_free in H by exact T_free.
        pose proof (HasPrefix_length _ _ C_prefix) as Hlen.
        rewrite HasPrefix_app_window in H by (rewrite length_skipn; lia).
        rewrite C_unbordered in H by assumption. discriminate.
      * cbn [fill] in H. destruct (ascii_dec c "?").
        -- rewrite C_token in H by assumption. discriminate.
        -- destruct (skipn_head C (proj2 Hj)) as (t & Et). rewrite Et in *.
           cbn [HasPrefix] in H |- *. destruct (ascii_dec t c); [|discriminate].
           destruct (Nat.lt_ge_cases (S j) (length C)) as [Hlt|Hge].
           ++ apply (IH (S n) (S j)); [lia|exact H].
           ++ rewrite skipn_all2 by lia. reflexivity.
Qed.

(** Masking, expanding [n] placeholders and restoring is one pass of
    [render], for a template in which [C] does not occur. *)
Lemma restore_expand_mask : forall t n k,
  Index t C = None ->
  replace_from T out 0 (fill n (replace_from (str "??") T k t)) = render out n k t.
Proof.
  induction t as [|c t IH]; intros n k Hno; [now destruct n|].
  destruct (Index_None_cons _ _ _ Hno) as (Hp & Hno').
  destruct k as [|k]; [|cbn [replace_from render]; now apply IH].
  destruct n as [|n].
  - rewrite fill_0, render_0. eapply unmask_mask; eassumption.
  - cbn [replace_from render]. destruct (HasPrefix (c :: t) (str "??")).
    + rewrite fill_free by exact T_free.
      rewrite (replace_from_at out (T_nonempty C_nonempty C_prefix C_unbordered))
        by apply HasPrefix_app.
      rewrite skipn_app, skipn_all, Nat.sub_diag. cbn [skipn app]. f_equal.
      now apply IH.
    + cbn [fill]. destruct (ascii_dec c "?").
      * rewrite restore_free by (intros i Hi; now apply T_token).
        f_equal. now apply IH.
      * assert (HasPrefix (c :: fill (S n) (replace_from (str "??") T 0 t)) T = false) as Hc.
        { destruct (HasPrefix (c :: fill (S n) (replace_from (str "??") T 0 t)) T) eqn:Ec;
            [|reflexivity].
          exfalso. pose proof (HasPrefix_trans _ _ _ Ec C_prefix) as Ec'.
          destruct (HasPrefix_cons_inv _ _ C_nonempty Ec') as (Hy & Hback).
          assert (HasPrefix t (skipn 1 C) = true) as Hv.
          { destruct (Nat.lt_ge_cases 1 (length C)) as [Hlt|Hge].
            - apply (expanded_suffix_match t (S n) (j := 1)); [lia|exact Hy].
            - rewrite skipn_all2 by lia. reflexivity. }
          rewrite (Hback _ Hv) in Hp. discriminate. }
        cbn [replace_from]. rewrite Hc. f_equal. now apply IH.
Qed.

End RenderFacts.

Lemma tmpQ_render out t n :
  Index t tmpQ = None ->
  replace_from tmpQ out 0 (fill n (replace_from (str "??") tmpQ 0 t)) = render out n 0 t.
Proof.
  apply restore_expand_mask with (C := tmpQ);
    [discriminate|reflexivity|exact tmpQ_unbordered|reflexivity| |].
  - intros i X Hi. do 11 (destruct i as [|i]; [reflexivity|]). simpl in Hi. lia.
  - intros j X [Hpos Hlt].
    do 13 (destruct j as [|j]; [try lia; reflexivity|]). simpl in Hlt. lia.
Qed.

Lemma tempPh_render out t n :
  Index t tempPhCore = None ->
  replace_from tempPh out 0 (fill n (replace_from (str "??") tempPh 0 t)) = render out n 0 t.
Proof.
  apply restore_expand_mask with (C := tempPhCore);
    [discriminate|reflexivity|exact tempPhCore_unbordered|reflexivity| |].
  - intros i X Hi. do 11 (destruct i as [|i]; [reflexivity|]). simpl in Hi. lia.
  - intros j X [Hpos Hlt].
    do 6 (destruct j as [|j]; [try lia; reflexivity|]). simpl in Hlt. lia.
Qed.

(** ** Escapes restored *)

(** C8 (amended): [Valf] restores every masked [??] of the template as a
    single [?], while [makePart] restores it as [??], which the [PGSQL]
    rendering then reduces to [?].  For scalar arguments and a template
    that holds neither the mask of [Valf] nor the first six bytes of the
    mask of [makePart], the text [Valf] returns (when the arguments
    suffice, so that it does not panic) is the template with [?] for every
    [??] and a placeholder token for every other [?]; the text [makePart]
    returns is the template with every [??] kept and a token for each of the
    first [len(args)] other [?].  [Valf("?? and ?", 1)] is ["? and "]
    followed by one token with parameters [[1]]; [makePart("?? and ?", 1)]
    renders under [PGSQL] to ["? and $1"]. *)
Theorem escapes_restored t args :
  Forall (fun a => scalar a = true) args ->
  Contains t tmpQ = false ->
  Contains t tempPhCore = false ->
  (Count (ReplaceAll t (str "??") tmpQ) (str "?") <= length args ->
   Valf t args = Returned (mkExpr (render (str "?") (length args) 0 t) args)) /\
  Text (makePart t args) = render (str "??") (length args) 0 t /\
  Params (makePart t args) = args /\
  Valf (str "?? and ?") [VInt KInt 1] =
    Returned (mkExpr (str "? and xX_PARAM_Xx") [VInt KInt 1]) /\
  makePart (str "?? and ?") [VInt KInt 1] =
    mkQueryPart (str "?? and xX_PARAM_Xx") [VInt KInt 1] [] /\
  dialectReplace PGSQL (str "?? and xX_PARAM_Xx") [VInt KInt 1] =
    Returned (str "? and $1", None).
Proof.
  intros Hs HtmpQ Htemp.
  split; [|split; [|split; [|repeat split; vm_compute; reflexivity]]].
  - intros Hle. unfold Valf. rewrite (valfArgs_scalar _ _ Hs).
    change (str "?") with ["?"%char] in *. rewrite Count_char in Hle.
    rewrite Contains_char, occ_question_expand.
    replace (occ "?" (ReplaceAll t (str "??") tmpQ) - length args =? 0) with true
      by (symmetry; apply Nat.eqb_eq; lia).
    cbn [app]. unfold ReplaceAll. rewrite expand_fill.
    now rewrite (@tmpQ_render ["?"%char] t (length args) (Contains_None _ _ HtmpQ)).
  - unfold makePart. rewrite (convertArgs_scalar _ _ _ Hs). cbn [Text].
    unfold ReplaceAll. rewrite expand_fill.
    now rewrite (@tempPh_render (str "??") t (length args) (Contains_None _ _ Htemp)).
  - unfold makePart. rewrite (convertArgs_scalar _ _ _ Hs). reflexivity.
Qed.

Lemma escapes_restored_witness :
  Valf (str "100 ?? of ? and ??") [VInt KInt 3] =
    Returned (mkExpr (str "100 ? of xX_PARAM_Xx and ?") [VInt KInt 3]) /\
  Text (makePart (str "100 ?? of ? and ??") [VInt KInt 3]) =
    str "100 ?? of xX_PARAM_Xx and ??".
Proof.
  destruct (@escapes_restored (str "100 ?? of ? and ??") [VInt KInt 3])
    as (HV & HT & _); [repeat constructor|reflexivity|reflexivity|].
  split; [apply HV; vm_compute; lia|exact HT].
Defined.

(** ** Mismatch between placeholders and arguments *)

(** [Valf] with at least as many scalar arguments as placeholders returns
    normally, and all the arguments are its parameters: a surplus of
    arguments goes unnoticed. *)
Lemma Valf_enough_arguments t args :
  Forall (fun a => scalar a = true) args ->
  Count (ReplaceAll t (str "??") tmpQ) (str "?") <= length args ->
  exists text, Valf t args = Returned (mkExpr text args).
Proof.
  intros Hs Hle. unfold Valf. rewrite (valfArgs_scalar _ _ Hs).
  change (str "?") with ["?"%char] in *. rewrite Count_char in Hle.
  rewrite Contains_char, occ_question_expand.
  replace (occ "?" (ReplaceAll t (str "??") tmpQ) - length args =? 0) with true
    by (symmetry; apply Nat.eqb_eq; lia).
  eexists. reflexivity.
Qed.

(** [Valf("? = ?", 1)] does not return a fragment with an error: it
    panics. *)
Lemma Valf_missing_argument_panics :
  Valf (str "? = ?") [VInt KInt 1] = Panicked /\
  forall e, Valf (str "? = ?") [VInt KInt 1] <> Returned e.
Proof. split; [vm_compute; reflexivity|intros e; vm_compute; discriminate]. Qed.

(** C3 (amended): for [makePart] called with scalar arguments, a mismatch
    between the placeholders of the template and the arguments is an
    accumulated error of the returned fragment, whose parameters are the
    arguments and whose text is not empty (unless the template is).  With
    fewer arguments than
    placeholders the error is "extra ?" (and [Valf], which has no error
    list, panics); with more arguments than placeholders it is "missing ?",
    for a template that does not hold the core [_PARAM_] of the placeholder
    token. *)
Theorem argument_mismatch t args :
  Forall (fun a => scalar a = true) args ->
  (length args < Count (ReplaceAll t (str "??") tempPh) (str "?") ->
   Errs (makePart t args) = [ExtraMark t (length args)] /\
   Params (makePart t args) = args /\
   Text (makePart t args) <> [] /\
   Valf t args = Panicked) /\
  (Count (ReplaceAll t (str "??") tempPh) (str "?") < length args ->
   Contains t paramCore = false ->
   Errs (makePart t args) = [MissingMark t (length args)] /\
   Params (makePart t args) = args /\
   (t <> [] -> Text (makePart t args) <> [])).
Proof.
  intros Hs. unfold makePart, Valf.
  rewrite (convertArgs_scalar _ _ _ Hs), (valfArgs_scalar _ _ Hs).
  unfold checkParamCounts. change (str "?") with ["?"%char].
  rewrite !Count_char, Contains_char, !occ_question_expand. cbn [app length].
  unfold ReplaceAll.
  rewrite (@occ_mask_indep "?" (str "??") tmpQ tempPh) by reflexivity.
  set (M := replace_from (str "??") tempPh 0 t).
  split.
  - intros Hlt.
    replace (0 <? occ "?" M - length args) with true
      by (symmetry; apply Nat.ltb_lt; lia).
    replace (occ "?" M - length args =? 0) with false
      by (symmetry; apply Nat.eqb_neq; lia).
    cbn. repeat split.
    apply replace_from_nonempty; [discriminate..|].
    intros He. pose proof (occ_question_expand (length args) M) as Ho.
    rewrite He in Ho. cbn in Ho. lia.
  - intros Hlt Hcore.
    replace (0 <? occ "?" M - length args) with false
      by (symmetry; apply Nat.ltb_ge; lia).
    assert (Count (expand (length args) M) paramPh <= occ "?" M) as Hc.
    { rewrite expand_fill. apply Count_fill. unfold M.
      apply mask_keeps_core_out, Contains_None, Hcore. }
    replace (Count (expand (length args) M) paramPh <? length args) with true
      by (symmetry; apply Nat.ltb_lt; lia).
    cbn. repeat split.
    intros Ht. apply replace_from_nonempty; [discriminate..|].
    apply expand_nonempty. unfold M. apply replace_from_nonempty; [discriminate..|exact Ht].
Qed.

Lemma argument_mismatch_witness :
  (Errs (makePart (str "? = ?") [VInt KInt 1]) = [ExtraMark (str "? = ?") 1] /\
   Params (makePart (str "? = ?") [VInt KInt 1]) = [VInt KInt 1] /\
   Text (makePart (str "? = ?") [VInt KInt 1]) <> [] /\
   Valf (str "? = ?") [VInt KInt 1] = Panicked) /\
  (Errs (makePart (str "UPDATE t SET a = ?") [VInt KInt 1; VBool true])
     = [MissingMark (str "UPDATE t SET a = ?") 2] /\
   Params (makePart (str "UPDATE t SET a = ?") [VInt KInt 1; VBool true])
     = [VInt KInt 1; VBool true]).
Proof.
  split.
  - apply (@argument_mismatch (str "? = ?") [VInt KInt 1]).
    + repeat constructor.
    + vm_compute. lia.
  - destruct (@argument_mismatch (str "UPDATE t SET a = ?") [VInt KInt 1; VBool true])
      as (_ & H); [repeat constructor|].
    destruct H as (He & Hp & _); [vm_compute; lia|reflexivity|].
    split; [exact He|exact Hp].
Defined.

(** ** Occurrences and the pieces between them *)

Lemma pieces_from_length marker : forall s k,
  length (pieces_from marker k s) = S (count_from marker k s).
Proof.
  induction s as [|c s IH]; intros k; [reflexivity|].
  destruct k as [|k]; cbn [pieces_from count_from]; [|apply IH].
  destruct (HasPrefix (c :: s) marker).
  - cbn [length]. now rewrite IH.
  - specialize (IH 0). destruct (pieces_from marker 0 s); [discriminate|exact IH].
Qed.

Lemma pieces_from_weave marker fn : forall s k i,
  subst_from marker fn k i s = weave fn i (pieces_from marker k s).
Proof.
  induction s as [|c s IH]; intros k i; [reflexivity|].
  destruct k as [|k]; cbn [pieces_from subst_from]; [|apply IH].
  destruct (HasPrefix (c :: s) marker).
  - rewrite IH. pose proof (pieces_from_length marker s (length marker - 1)) as Hl.
    destruct (pieces_from marker (length marker - 1) s); [discriminate|reflexivity].
  - rewrite IH. pose proof (pieces_from_length marker s 0) as Hl.
    destruct (pieces_from marker 0 s) as [|p [|q ps]]; [discriminate|reflexivity..].
Qed.

Lemma weave_cons fn i p q ps :
  weave fn i (p :: q :: ps) = p ++ fn i ++ weave fn (S i) (q :: ps).
Proof. reflexivity. Qed.

Lemma Join_cons p q ps sep : Join (p :: q :: ps) sep = p ++ sep ++ Join (q :: ps) sep.
Proof. reflexivity. Qed.

Lemma weave_Join marker : forall ps i, weave (fun _ => marker) i ps = Join ps marker.
Proof.
  induction ps as [|p ps IH]; intros i; [reflexivity|].
  destruct ps as [|q ps]; [reflexivity|]. now rewrite weave_cons, Join_cons, IH.
Qed.

Lemma subst_from_const marker r : forall s k i,
  subst_from marker (fun _ => r) k i s = replace_from marker r k s.
Proof.
  induction s as [|c s IH]; intros k i; [reflexivity|].
  destruct k as [|k]; cbn [subst_from replace_from]; [|apply IH].
  destruct (HasPrefix (c :: s) marker); now rewrite IH.
Qed.

Lemma pieces_Join marker s : marker <> [] -> Join (pieces marker s) marker = s.
Proof.
  intros Hm. unfold pieces.
  rewrite <- (weave_Join marker _ 0), <- pieces_from_weave, subst_from_const.
  now rewrite replace_from_same.
Qed.

Lemma subst_no_occurrence marker fn : forall s i,
  Count s marker = 0 -> subst_from marker fn 0 i s = s.
Proof.
  unfold Count. induction s as [|c s IH]; intros i H; [reflexivity|].
  cbn [count_from subst_from] in *. destruct (HasPrefix (c :: s) marker); [discriminate|].
  f_equal. now apply IH.
Qed.

(** X18: for a non-empty marker and a replacement function that does not
    panic, [scanReplace] always returns; on
    every text shorter than [bufio.MaxScanTokenSize] (64 KiB), and more
    generally whenever it returns no error, the text it returns is the input
    with the [i]-th non-overlapping occurrence of the marker, left to right
    and counted from 0, replaced by [fn i] and everything else copied.  That
    text is the pieces between the occurrences woven with [fn 0], [fn 1],
    ...; there is one piece more than occurrences, so that an occurrence at
    the very start or end is replaced next to an empty piece, and a text
    without occurrence (a partial match included) is returned as it is. *)
Theorem scanReplace_contract stmt marker fn :
  marker <> [] ->
  (exists out err,
     scanReplace stmt marker (total fn) = Returned (out, err) /\
     (length stmt < Bufio.MaxScanTokenSize -> err = None) /\
     (err = None -> out = replace_occurrences marker fn stmt)) /\
  replace_occurrences marker fn stmt = weave fn 0 (pieces marker stmt) /\
  Join (pieces marker stmt) marker = stmt /\
  length (pieces marker stmt) = S (Count stmt marker) /\
  (Count stmt marker = 0 -> replace_occurrences marker fn stmt = stmt).
Proof.
  intros Hm. split.
  - destruct (scanReplace_spec Hm fn stmt) as (out & err & Hrun & Hok & Hshort).
    exists out, err. repeat split; assumption.
  - split; [apply pieces_from_weave|].
    split; [now apply pieces_Join|].
    split; [apply pieces_from_length|apply subst_no_occurrence].
Qed.

Lemma scanReplace_contract_witness :
  (exists out err,
     scanReplace (str "??a??b?") (str "??") (total (fun i => str "$" ++ fmt_nat i))
       = Returned (out, err) /\
     (length (str "??a??b?") < Bufio.MaxScanTokenSize -> err = None) /\
     (err = None ->
      out = replace_occurrences (str "??") (fun i => str "$" ++ fmt_nat i) (str "??a??b?"))) /\
  replace_occurrences (str "??") (fun i => str "$" ++ fmt_nat i) (str "??a??b?")
    = str "$0a$1b?".
Proof.
  destruct (@scanReplace_contract (str "??a??b?") (str "??")
              (fun i => str "$" ++ fmt_nat i)) as (Hrun & Hweave & _);
    [discriminate|].
  split; [exact Hrun|]. rewrite Hweave. reflexivity.
Defined.

(** ** Numbered placeholders *)

Lemma str_inj a b : str a = str b -> a = b.
Proof.
  unfold str. intros H.
  rewrite <- (String.string_of_list_ascii_of_string a),
          <- (String.string_of_list_ascii_of_string b).
  now rewrite H.
Qed.

Lemma dollar_inj i j : dollar i = dollar j -> i = j.
Proof.
  unfold dollar, fmt_nat. intros H. apply app_inv_head, str_inj in H.
  assert (Some (Nat.to_uint (i + 1)) = Some (Nat.to_uint (j + 1))) as Hu
    by (rewrite <- !DecimalString.NilEmpty.usu; now rewrite H).
  injection Hu as Hu. apply DecimalNat.Unsigned.to_uint_inj in Hu. lia.
Qed.

Lemma length_replace_from old new :
  old <> [] -> length new <= length old -> forall s k,
  length (replace_from old new k s) <= length (skipn k s).
Proof.
  intros Ho Hn. induction s as [|c s IH]; intros k; [now destruct k|].
  destruct k as [|k]; cbn [replace_from skipn]; [|apply IH].
  destruct (HasPrefix (c :: s) old) eqn:E.
  - apply HasPrefix_length in E. specialize (IH (length old - 1)).
    rewrite length_skipn in IH. rewrite length_app. simpl length in *.
    destruct old; [congruence|simpl in *; lia].
  - specialize (IH 0). simpl in *. lia.
Qed.

Lemma unescape_free p : occ "?" p = 0 -> forall s,
  replace_from (str "??") (str "?") 0 (p ++ s) = p ++ replace_from (str "??") (str "?") 0 s.
Proof.
  induction p as [|a p IH]; intros Hp s; [reflexivity|].
  unfold occ in *. simpl in Hp. destruct (ascii_dec a "?"); [discriminate|].
  change ((a :: p) ++ s) with (a :: (p ++ s)). cbn [replace_from HasPrefix str].
  assert (HasPrefix (a :: p ++ s) (str "??") = false) as E.
  { cbn. destruct (ascii_dec "?" a); [congruence|reflexivity]. }
  rewrite E. cbn [app]. f_equal. now apply IH.
Qed.

Lemma unescape_token_match : forall s j,
  j < length paramPh ->
  HasPrefix (replace_from (str "??") (str "?") 0 s) (skipn j paramPh) = true ->
  HasPrefix s (skipn j paramPh) = true.
Proof.
  induction s as [|c s IH]; intros j Hj H; [exact H|].
  cbn [replace_from] in H. destruct (HasPrefix (c :: s) (str "??")).
  - exfalso. clear -Hj H.
    do 11 (destruct j as [|j]; [vm_compute in H; discriminate|]). simpl in Hj. lia.
  - destruct (skipn_head paramPh Hj) as (t & Et). rewrite Et in *.
    cbn [HasPrefix] in H |- *. destruct (ascii_dec t c); [|discriminate].
    destruct (Nat.lt_ge_cases (S j) (length paramPh)) as [Hlt|Hge].
    + apply (IH (S j)); [lia|exact H].
    + rewrite skipn_all2 by lia. reflexivity.
Qed.

(** Resolving the escapes [??] does not change the number of placeholder
    tokens. *)
Lemma Count_unescape : forall n s,
  length s <= n ->
  Count (ReplaceAll s (str "??") (str "?")) paramPh = Count s paramPh.
Proof.
  unfold Count, ReplaceAll.
  induction n as [|n IH]; intros s Hn.
  - destruct s; [reflexivity|simpl in Hn; lia].
  - destruct s as [|c s]; [reflexivity|].
    destruct (HasPrefix (c :: s) (str "??")) eqn:Eq.
    + rewrite (@replace_from_at (str "??") (str "?") ltac:(discriminate) _ Eq).
      pose proof (HasPrefix_split _ _ Eq) as Hs.
      pose proof (HasPrefix_length _ _ Eq) as Hl. simpl length in Hl.
      set (r := skipn (length (str "??")) (c :: s)) in *.
      rewrite Hs. change (str "??" ++ r) with ("?"%char :: "?"%char :: r).
      change (str "?" ++ replace_from (str "??") (str "?") 0 r)
        with ("?"%char :: replace_from (str "??") (str "?") 0 r).
      cbn [count_from]. replace (HasPrefix _ paramPh) with false by reflexivity.
      replace (HasPrefix ("?"%char :: "?"%char :: r) paramPh) with false by reflexivity.
      replace (HasPrefix ("?"%char :: r) paramPh) with false by reflexivity.
      apply IH. unfold r. rewrite length_skipn.
      change (length (str "??")) with 2. simpl length in Hn |- *. lia.
    + destruct (HasPrefix (c :: s) paramPh) eqn:Ep.
      * pose proof (HasPrefix_split _ _ Ep) as Hs.
        pose proof (HasPrefix_length _ _ Ep) as Hl.
        set (r := skipn (length paramPh) (c :: s)) in *.
        rewrite Hs, unescape_free by reflexivity.
        rewrite !count_from_at by discriminate. f_equal.
        apply IH. unfold r. rewrite length_skipn.
        change (length paramPh) with 11. simpl length in Hn |- *. lia.
      * cbn [replace_from count_from]. rewrite Eq, Ep.
        assert (HasPrefix (c :: replace_from (str "??") (str "?") 0 s) paramPh = false) as Ec.
        { destruct (HasPrefix (c :: replace_from (str "??") (str "?") 0 s) paramPh) eqn:Ec;
            [|reflexivity].
          exfalso.
          destruct (@HasPrefix_cons_inv c _ paramPh ltac:(discriminate) Ec) as (Hy & Hback).
          rewrite (Hback s) in Ep; [discriminate|].
          apply (@unescape_token_match s 1); [simpl; lia|exact Hy]. }
        cbn [count_from]. rewrite Ec. apply IH. simpl in Hn. lia.
Qed.

Lemma errors_Join_two e1 e2 :
  errors_Join [option_map ScanError e1; option_map ScanError e2] = None <->
  e1 = None /\ e2 = None.
Proof. destruct e1, e2; cbn; split; intros H; try discriminate; intuition congruence. Qed.

Lemma PGSQL_scans sql :
  exists out err,
    replaceWithScans sql
      [mkScan doubleQuestionMarkDelimiter (fun _ => Some questionMark);
       mkScan paramPh (fun i => Some (str "$" ++ fmt_nat (i + 1)))]
    = Returned (out, err) /\
    (length sql < Bufio.MaxScanTokenSize -> err = None) /\
    (err = None ->
     out = replace_occurrences paramPh dollar (ReplaceAll sql (str "??") (str "?"))).
Proof.
  assert (doubleQuestionMarkDelimiter <> []) as Hq by discriminate.
  assert (paramPh <> []) as Hp by discriminate.
  destruct (scanReplace_spec Hq (fun _ => questionMark) sql)
    as (out1 & e1 & Hrun1 & Hok1 & Hshort1).
  destruct (scanReplace_spec Hp dollar out1) as (out2 & e2 & Hrun2 & Hok2 & Hshort2).
  exists out2, (errors_Join [option_map ScanError e1; option_map ScanError e2]).
  split; [|split].
  - unfold replaceWithScans. cbn [runScans pattern fn].
    change (scanReplace sql doubleQuestionMarkDelimiter (fun _ => Some questionMark))
      with (scanReplace sql doubleQuestionMarkDelimiter (total (fun _ => questionMark))).
    rewrite Hrun1. cbn [runScans pattern fn app].
    change (scanReplace out1 paramPh (fun i => Some (str "$" ++ fmt_nat (i + 1))))
      with (scanReplace out1 paramPh (total dollar)).
    rewrite Hrun2. reflexivity.
  - intros Hlt. apply errors_Join_two.
    assert (e1 = None) as He1 by auto. split; [exact He1|]. apply Hshort2.
    rewrite (Hok1 He1). unfold replace_occurrences.
    rewrite subst_from_const.
    pose proof (@length_replace_from doubleQuestionMarkDelimiter questionMark Hq
                  ltac:(simpl; lia) sql 0) as Hl.
    simpl skipn in Hl. lia.
  - intros He. apply errors_Join_two in He. destruct He as (He1 & He2).
    rewrite (Hok2 He2), (Hok1 He1). unfold replace_occurrences at 2.
    now rewrite subst_from_const.
Qed.

(** A text of 64 KiB before its only placeholder token: the [PGSQL]
    rendering returns an error and no [$1]. *)
Lemma PGSQL_long_text_fails :
  Count (long_text ++ paramPh) paramPh = 1 /\
  dialectReplace PGSQL (long_text ++ paramPh) [VInt KInt 1] =
  Returned ([], Some (Joined [ScanError Bufio.ErrTooLong])).
Proof. split; vm_compute; reflexivity. Qed.

(** X19: on every text shorter than 64 KiB, and more generally
    whenever it returns no error, the [PGSQL] rendering first turns every
    [??] into [?] and then replaces the [i]-th placeholder token, counted
    from 0 and left to right, by [$(i+1)]: the output is the pieces of the
    text between its tokens woven with [$1], [$2], ... in this order.  There
    is one piece more than the text has tokens, so a text with [N] tokens
    gets exactly [$1] to [$N], and different occurrences get different
    placeholders.  [dialectReplace] returns no parameter list: the
    parameters stay with the caller as they are. *)
Theorem PGSQL_numbering sql params :
  (exists out err,
     dialectReplace PGSQL sql params = Returned (out, err) /\
     (length sql < Bufio.MaxScanTokenSize -> err = None) /\
     (err = None ->
      out = weave dollar 0 (pieces paramPh (ReplaceAll sql (str "??") (str "?"))))) /\
  Join (pieces paramPh (ReplaceAll sql (str "??") (str "?"))) paramPh
    = ReplaceAll sql (str "??") (str "?") /\
  length (pieces paramPh (ReplaceAll sql (str "??") (str "?"))) = S (Count sql paramPh) /\
  (forall i j, dollar i = dollar j -> i = j).
Proof.
  split; [|split; [|split]].
  - destruct (PGSQL_scans sql) as (out & err & Hrun & Hshort & Hok).
    exists out, err. split; [exact Hrun|]. split; [exact Hshort|].
    intros He. rewrite (Hok He). apply pieces_from_weave.
  - apply pieces_Join. discriminate.
  - unfold pieces. rewrite pieces_from_length. f_equal.
    apply (Count_unescape (n := length sql)). lia.
  - exact dollar_inj.
Qed.

Lemma PGSQL_numbering_witness :
  dialectReplace PGSQL (str "a = xX_PARAM_Xx AND b ?? xX_PARAM_Xx")
                 [VInt KInt 7; VInt KInt 7] =
  Returned (str "a = $1 AND b ? $2", None).
Proof.
  destruct (@PGSQL_numbering (str "a = xX_PARAM_Xx AND b ?? xX_PARAM_Xx")
              [VInt KInt 7; VInt KInt 7]) as ((out & err & Hrun & Hshort & Hok) & _).
  rewrite Hrun. assert (err = None) as He.
  { apply Hshort. apply Nat.ltb_lt. vm_compute. reflexivity. }
  rewrite (Hok He), He. reflexivity.
Defined.

(** * Further properties of the code *)

(** ** Grouping expressions *)

Lemma intfToExpr_anyExpr e : intfToExpr (anyExpr e) = Returned e.
Proof. now destruct e. Qed.

Lemma intfToExpr_total intf : intfToExpr intf <> Diverged.
Proof.
  destruct intf; simpl; try discriminate. destruct (Contains _ _); discriminate.
Qed.

Lemma groupLoop_getExprsLoop : forall exprs newFs newV acc,
  match getExprsLoop acc exprs with
  | Returned all =>
      exists es, all = acc ++ es /\
                 groupLoop newFs newV exprs
                 = Returned (newFs ++ map F es, newV ++ concat (map V es))
  | Panicked => groupLoop newFs newV exprs = Panicked
  | Diverged => False
  end.
Proof.
  induction exprs as [|x exprs IH]; intros newFs newV acc.
  - simpl. exists []. now rewrite !app_nil_r.
  - cbn [getExprsLoop groupLoop]. pose proof (intfToExpr_total x) as Ht.
    destruct (intfToExpr x) as [e| |]; [|reflexivity|congruence].
    specialize (IH (newFs ++ [F e]) (newV ++ V e) (acc ++ [e])).
    destruct (getExprsLoop (acc ++ [e]) exprs) as [all| |]; [|exact IH|exact IH].
    destruct IH as (es & Hall & Hg). exists (e :: es). split.
    + now rewrite Hall, <- app_assoc.
    + rewrite Hg. cbn [map concat]. now rewrite <- !app_assoc.
Qed.

Lemma getExprsLoop_anyExpr : forall es acc,
  getExprsLoop acc (map anyExpr es) = Returned (acc ++ es).
Proof.
  induction es as [|e es IH]; intros acc; simpl map; cbn [getExprsLoop].
  - now rewrite app_nil_r.
  - rewrite intfToExpr_anyExpr, IH. now rewrite <- app_assoc.
Qed.

Lemma exprsToSqlLoop_spec : forall es qs newP,
  exprsToSqlLoop qs newP es = Returned (qs ++ map F es, newP ++ concat (map V es)).
Proof.
  induction es as [|e es IH]; intros qs newP; cbn [exprsToSqlLoop].
  - now rewrite !app_nil_r.
  - rewrite intfToExpr_anyExpr, IH. cbn [map concat].
    destruct (V e) as [|v vs] eqn:Ev; cbn [length Nat.ltb Nat.leb];
      now rewrite <- !app_assoc.
Qed.

(** X1: [Group] over expressions never panics: the texts are joined by the
    separator, in parentheses when there are two or more, and the parameter
    lists follow each other in argument order.  A single expression comes
    back as it is, and no expression at all gives the empty expression. *)
Theorem Group_of_expressions sep es :
  Group sep (map anyExpr es) =
    Returned (mkExpr ((if 1 <? length es then str "(" else [])
                      ++ Join (map F es) sep
                      ++ (if 1 <? length es then str ")" else []))
                     (concat (map V es))) /\
  (forall e, Group sep [anyExpr e] = Returned e) /\
  Group sep [] = Returned (mkExpr [] []).
Proof.
  assert (forall l, Group sep (map anyExpr l) =
            Returned (mkExpr ((if 1 <? length l then str "(" else [])
                              ++ Join (map F l) sep
                              ++ (if 1 <? length l then str ")" else []))
                             (concat (map V l)))) as H.
  { intros l. unfold Group.
    pose proof (groupLoop_getExprsLoop (map anyExpr l) [] [] []) as Hg.
    rewrite getExprsLoop_anyExpr in Hg. destruct Hg as (es' & Hes & Hg).
    simpl in Hes. subst es'. rewrite Hg. now rewrite length_map. }
  split; [apply H|]. split; [|reflexivity].
  intros e. change [anyExpr e] with (map anyExpr [e]). rewrite (H [e]).
  destruct e as [f v]. simpl. now rewrite !app_nil_r.
Qed.

(** X2: [Group] is [getExprs] followed by [exprsToSql] and the joining of the
    texts: when [getExprs] returns, [exprsToSql] of its result returns the
    texts and the concatenated parameters that [Group] assembles, and
    [Group] panics exactly when [getExprs] does. *)
Theorem Group_getExprs_exprsToSql sep exprs :
  (forall es, getExprs exprs = Returned es ->
     exprsToSql es = Returned (map F es, concat (map V es)) /\
     Group sep exprs =
       Returned (mkExpr ((if 1 <? length exprs then str "(" else [])
                         ++ Join (map F es) sep
                         ++ (if 1 <? length exprs then str ")" else []))
                        (concat (map V es))) /\
     length es = length exprs) /\
  (getExprs exprs = Panicked <-> Group sep exprs = Panicked) /\
  (forall es, getExprs (map anyExpr es) = Returned es).
Proof.
  pose proof (groupLoop_getExprsLoop exprs [] [] []) as Hg.
  unfold getExprs, Group, exprsToSql in *. split; [|split].
  - intros es Hes. rewrite Hes in Hg. destruct Hg as (es' & Hall & Hg).
    simpl in Hall. subst es'. rewrite Hg. split; [apply exprsToSqlLoop_spec|].
    split; [reflexivity|].
    clear -Hes.
    assert (forall exprs acc es, getExprsLoop acc exprs = Returned es ->
              length es = length acc + length exprs) as Hl.
    { clear. induction exprs as [|x exprs IH]; intros acc es H; simpl in H.
      - injection H as <-. simpl. lia.
      - destruct (intfToExpr x); try discriminate.
        apply IH in H. rewrite length_app in H. simpl in *. lia. }
    now apply Hl in Hes.
  - destruct (getExprsLoop [] exprs) as [all| |].
    + destruct Hg as (es & _ & Hg). rewrite Hg. split; discriminate.
    + rewrite Hg. split; reflexivity.
    + contradiction.
  - intros es. apply getExprsLoop_anyExpr.
Qed.

Lemma Group_getExprs_exprsToSql_witness :
  exprsToSql [mkExpr (str "a ? b") []; inner_expr]
  = Returned ([str "a ? b"; str "x = xX_PARAM_Xx"], [VInt KInt 5]) /\
  Group (str " OR ") [VString (str "a ?? b"); anyExpr inner_expr]
  = Returned (mkExpr (str "(a ? b OR x = xX_PARAM_Xx)") [VInt KInt 5]).
Proof.
  destruct (@Group_getExprs_exprsToSql (str " OR ")
              [VString (str "a ?? b"); anyExpr inner_expr]) as (H & _).
  destruct (H [mkExpr (str "a ? b") []; inner_expr] eq_refl) as (Hs & Hg & _).
  split; [exact Hs|exact Hg].
Defined.

Lemma exprGroupInner_spec : forall group sql params n len,
  len = n + length group ->
  exprGroupInner sql params n len group =
  (sql ++ Join (map F group) (str " AND "), params ++ concat (map V group)).
Proof.
  induction group as [|e rest IH]; intros sql params n len Hlen.
  - simpl. now rewrite !app_nil_r.
  - cbn [exprGroupInner]. rewrite (IH _ _ (S n) len) by (simpl in Hlen; lia).
    destruct rest as [|r rs].
    + replace (n + 1 <? len) with false
        by (symmetry; apply Nat.ltb_ge; simpl in Hlen; lia).
      simpl. now rewrite !app_nil_r.
    + replace (n + 1 <? len) with true
        by (symmetry; apply Nat.ltb_lt; simpl in Hlen; lia).
      cbn [map concat]. rewrite Join_cons. now rewrite <- !app_assoc.
Qed.

Lemma exprGroupOuter_spec : forall groups sql params i len,
  len = i + length groups -> groups <> [] ->
  exprGroupOuter sql params i len groups =
  (sql ++ Join (map (fun g => str "(" ++ Join (map F g) (str " AND ") ++ str ")") groups)
               (str " OR ") ++ str " ",
   params ++ concat (map (fun g => concat (map V g)) groups)).
Proof.
  induction groups as [|g rest IH]; intros sql params i len Hlen Hne; [congruence|].
  cbn [exprGroupOuter]. rewrite (exprGroupInner_spec g _ _ 0) by reflexivity.
  destruct rest as [|r rs].
  - replace (i + 1 =? len) with true
      by (symmetry; apply Nat.eqb_eq; simpl in Hlen; lia).
    cbn [exprGroupOuter map Join concat].
    change (str ") ") with (str ")" ++ str " ").
    now rewrite !app_nil_r, <- !app_assoc.
  - replace (i + 1 =? len) with false
      by (symmetry; apply Nat.eqb_neq; simpl in Hlen; lia).
    rewrite (IH _ _ (S i) len) by (simpl in Hlen |- *; try lia; discriminate).
    cbn [map concat]. rewrite Join_cons.
    change (str ") OR ") with (str ")" ++ str " OR ").
    now rewrite <- !app_assoc.
Qed.

(** X3: [exprGroup] writes every group as its texts joined by [" AND "] in
    parentheses, joins the groups by [" OR "] and ends with one space;
    without any group the text is empty.  The parameters are those of all
    expressions in reading order. *)
Theorem exprGroup_text groups :
  exprGroup groups =
  (match groups with
   | [] => []
   | _ => Join (map (fun g => str "(" ++ Join (map F g) (str " AND ") ++ str ")") groups)
               (str " OR ") ++ str " "
   end,
   concat (map (fun g => concat (map V g)) groups)).
Proof.
  unfold exprGroup. destruct groups as [|g rest]; [reflexivity|].
  change (0 <? length (g :: rest)) with true. cbv iota.
  now rewrite (@exprGroupOuter_spec (g :: rest) [] [] 0 (length (g :: rest))).
Qed.

(** ** Composing scans *)

Lemma errors_Join_None errs :
  errors_Join errs = None <-> Forall (fun e => e = None) errs.
Proof.
  unfold errors_Join. induction errs as [|e errs IH]; simpl.
  - split; [constructor|reflexivity].
  - destruct e as [x|]; simpl.
    + split; [discriminate|]. intros H. inversion H. discriminate.
    + rewrite IH. split; [now constructor|]. intros H. now inversion H.
Qed.

Lemma runScans_total_scans : forall (ss : list (gostring * (nat -> gostring))) input errs,
  Forall (fun s => fst s <> []) ss ->
  exists out err,
    runScans input (map (fun s => mkScan (fst s) (total (snd s))) ss) errs
      = Returned (out, err) /\
    (err = None ->
     Forall (fun e => e = None) errs /\
     out = fold_left (fun acc s => replace_occurrences (fst s) (snd s) acc) ss input).
Proof.
  induction ss as [|[p f] ss IH]; intros input errs Hne.
  - exists input, (errors_Join errs). split; [reflexivity|].
    intros He. now apply errors_Join_None in He.
  - inversion Hne as [|? ? Hp Hrest]; subst. simpl in Hp.
    destruct (scanReplace_spec Hp f input) as (out1 & e1 & Hrun & Hok & _).
    destruct (IH out1 (errs ++ [option_map ScanError e1]) Hrest)
      as (out & err & Hruns & Hall).
    exists out, err. split.
    + cbn [map runScans pattern fn fst snd]. now rewrite Hrun.
    + intros He. destruct (Hall He) as (Herrs & Hout).
      apply Forall_app in Herrs. destruct Herrs as (Herrs & Hlast).
      inversion Hlast as [|? ? He1 _]; subst.
      destruct e1; [discriminate|]. split; [exact Herrs|].
      cbn [fold_left fst snd]. now rewrite <- (Hok eq_refl).
Qed.

(** X4: [replaceWithScans] with non-empty patterns and replacement functions
    that do not panic always returns; when the joined error is nil, the
    text is the input taken through the scans one after the other, each on
    the output of the one before. *)
Theorem replaceWithScans_composes (ss : list (gostring * (nat -> gostring))) input :
  Forall (fun s => fst s <> []) ss ->
  exists out err,
    replaceWithScans input (map (fun s => mkScan (fst s) (total (snd s))) ss)
      = Returned (out, err) /\
    (err = None ->
     out = fold_left (fun acc s => replace_occurrences (fst s) (snd s) acc) ss input).
Proof.
  intros Hne. destruct (runScans_total_scans input [] Hne) as (out & err & Hrun & Hok).
  exists out, err. split; [exact Hrun|]. intros He. now destruct (Hok He).
Qed.

Lemma replaceWithScans_composes_witness :
  exists out err,
    replaceWithScans (str "a ?? b xX_PARAM_Xx")
      (map (fun s => mkScan (fst s) (total (snd s)))
           [(str "??", fun _ => str "?"); (paramPh, dollar)])
      = Returned (out, err) /\
    (err = None ->
     out = fold_left (fun acc s => replace_occurrences (fst s) (snd s) acc)
                     [(str "??", fun _ => str "?"); (paramPh, dollar)]
                     (str "a ?? b xX_PARAM_Xx")).
Proof.
  apply (@replaceWithScans_composes
           [(str "??", fun _ => str "?"); (paramPh, dollar)] (str "a ?? b xX_PARAM_Xx")).
  repeat constructor; discriminate.
Defined.

(** ** Native placeholders *)

Lemma occ_replace_token : forall s k,
  occ "?" (replace_from paramPh (str "?") k s)
  = occ "?" (skipn k s) + count_from paramPh k s.
Proof.
  induction s as [|a s IH]; intros k; [now destruct k|].
  destruct k as [|k]; cbn [replace_from count_from skipn]; [|apply IH].
  destruct (HasPrefix (a :: s) paramPh) eqn:E.
  - rewrite occ_app, IH. pose proof (HasPrefix_split _ _ E) as Hs.
    change (length paramPh - 1) with 10. change (length paramPh) with 11 in Hs.
    change (skipn 11 (a :: s)) with (skipn 10 s) in Hs.
    assert (occ "?" (a :: s) = occ "?" paramPh + occ "?" (skipn 10 s)) as Hd
      by (rewrite Hs at 1; apply occ_app).
    rewrite Hd.
    change (occ "?" paramPh) with 0. change (occ "?" (str "?")) with 1. lia.
  - specialize (IH 0). cbn [skipn] in IH. unfold occ in *. simpl.
    change (str "?") with ["?"%char] in IH. destruct (ascii_dec a "?"); lia.
Qed.

(** X5: Under the [MYSQL] and [SQL] dialects every placeholder token becomes a
    [?] and nothing else changes, on every text shorter than 64 KiB and
    whenever no error is returned.  The output holds the question marks of
    the text, those of the escapes [??] included, and one more for every
    token. *)
Theorem native_rendering sql params :
  (exists out err,
     dialectReplace MYSQL sql params = Returned (out, err) /\
     dialectReplace SQL sql params = Returned (out, err) /\
     (length sql < Bufio.MaxScanTokenSize -> err = None) /\
     (err = None -> out = ReplaceAll sql paramPh (str "?"))) /\
  occ "?" (ReplaceAll sql paramPh (str "?")) = occ "?" sql + Count sql paramPh.
Proof.
  split; [|apply (occ_replace_token sql 0)].
  assert (paramPh <> []) as Hp by discriminate.
  destruct (scanReplace_spec Hp (fun _ => questionMark) sql)
    as (out & e & Hrun & Hok & Hshort).
  exists out, (errors_Join [option_map ScanError e]).
  assert (dialectReplace MYSQL sql params
          = Returned (out, errors_Join [option_map ScanError e])) as Hm.
  { unfold dialectReplace, replaceWithScans. cbn [runScans pattern fn].
    change (scanReplace sql paramPh (fun _ => Some questionMark))
      with (scanReplace sql paramPh (total (fun _ => questionMark))).
    now rewrite Hrun. }
  assert (dialectReplace SQL sql params = dialectReplace MYSQL sql params) as Hs
    by (unfold dialectReplace; reflexivity).
  split; [exact Hm|]. split; [now rewrite Hs|]. split.
  - intros Hlt. rewrite (Hshort Hlt). reflexivity.
  - intros He. destruct e; [discriminate|]. rewrite (Hok eq_refl).
    unfold replace_occurrences. apply subst_from_const.
Qed.

Lemma native_rendering_witness :
  dialectReplace MYSQL (str "a = xX_PARAM_Xx AND b ?? xX_PARAM_Xx") []
  = Returned (str "a = ? AND b ?? ?", None).
Proof.
  destruct (@native_rendering (str "a = xX_PARAM_Xx AND b ?? xX_PARAM_Xx") [])
    as ((out & err & Hm & _ & Hshort & Hok) & _).
  rewrite Hm. assert (err = None) as He.
  { apply Hshort. apply Nat.ltb_lt. vm_compute. reflexivity. }
  rewrite (Hok He), He. reflexivity.
Defined.

(** ** Sequence arguments *)

Lemma Replace1_first r : forall pre post,
  occ "?" pre = 0 ->
  Replace1 (pre ++ str "?" ++ post) (str "?") r = pre ++ r ++ post.
Proof.
  induction pre as [|c pre IH]; intros post Hp.
  - reflexivity.
  - unfold occ in Hp. simpl in Hp. destruct (ascii_dec c "?") as [|Hc]; [discriminate|].
    change ((c :: pre) ++ str "?" ++ post) with (c :: (pre ++ str "?" ++ post)).
    rewrite Replace1_cons. destruct (ascii_dec c "?"); [congruence|].
    simpl. f_equal. now apply IH.
Qed.

Lemma count_skip_free tok : forall p r,
  (forall i, i < length p -> HasPrefix (skipn i p ++ r) tok = false) ->
  count_from tok 0 (p ++ r) = count_from tok 0 r.
Proof.
  induction p as [|a p IH]; intros r Hp; [reflexivity|].
  pose proof (Hp 0 ltac:(simpl; lia)) as H0. cbn [skipn] in H0.
  change ((a :: p) ++ r) with (a :: (p ++ r)) in *. cbn [count_from].
  rewrite H0. apply IH. intros i Hi. apply (Hp (S i)). simpl. lia.
Qed.

Lemma map_const {A B} (b : B) (v : list A) : map (fun _ => b) v = repeat b (length v).
Proof. induction v; simpl; congruence. Qed.

Lemma Count_joined_tokens sep :
  (forall i r, i < length sep -> HasPrefix (skipn i sep ++ r) paramPh = false) ->
  forall n, Count (Join (repeat paramPh n) sep) paramPh = n.
Proof.
  intros Hsep. unfold Count. induction n as [|n IH]; [reflexivity|].
  destruct n as [|n].
  - simpl repeat. cbn [Join]. rewrite <- (app_nil_r paramPh).
    now rewrite count_from_at by discriminate.
  - change (repeat paramPh (S (S n))) with (paramPh :: paramPh :: repeat paramPh n).
    rewrite Join_cons, count_from_at by discriminate.
    rewrite count_skip_free by (intros i Hi; now apply Hsep).
    f_equal. exact IH.
Qed.

(** X6: A non-empty sequence argument ([[]int], [[]*int], [[]string],
    [[]*string], [[]any]) given to [convertArg] replaces the first [?] of
    the text, in place, by as many comma-joined placeholder tokens as it has
    elements, and its elements are the parameters, in order, without error.
    [Valf] does the same for [[]int], [[]string] and [[]any] with [", "]
    between the tokens. *)
Theorem sequence_argument_expansion pre post arg ps :
  elements arg = Some ps ->
  ps <> [] ->
  occ "?" pre = 0 ->
  convertArg (pre ++ str "?" ++ post) arg =
    (pre ++ Join (repeat paramPh (length ps)) (str ",") ++ post, ps, []) /\
  Count (Join (repeat paramPh (length ps)) (str ",")) paramPh = length ps /\
  Count (Join (repeat paramPh (length ps)) (str ", ")) paramPh = length ps /\
  ((forall v, arg <> VIntPtrs v) -> (forall v, arg <> VStringPtrs v) ->
   valfArg (pre ++ str "?" ++ post) arg =
     (pre ++ Join (repeat paramPh (length ps)) (str ", ") ++ post, ps)).
Proof.
  intros He Hne Hpre.
  assert (forall sep, Replace1 (pre ++ str "?" ++ post) (str "?")
                        (Join (repeat paramPh (length ps)) sep)
                      = pre ++ Join (repeat paramPh (length ps)) sep ++ post) as Hr
    by (intros sep; now apply Replace1_first).
  split; [|split; [|split]].
  - destruct arg; try discriminate; simpl in He; injection He as <-;
      cbn [convertArg]; rewrite ?map_const, ?length_map in *;
      rewrite ?Hr; try reflexivity;
      (destruct l; [simpl in Hne; congruence|reflexivity]).
  - apply Count_joined_tokens. intros i r Hi.
    destruct i as [|i]; [reflexivity|simpl in Hi; lia].
  - apply Count_joined_tokens. intros i r Hi.
    do 2 (destruct i as [|i]; [reflexivity|]). simpl in Hi. lia.
  - intros Hn1 Hn2.
    destruct arg; try discriminate; simpl in He; injection He as <-;
      cbn [valfArg]; rewrite ?map_const, ?length_map in *; rewrite ?Hr;
      try reflexivity; exfalso; [eapply Hn1|eapply Hn2]; reflexivity.
Qed.

Lemma sequence_argument_expansion_witness :
  convertArg (str "id IN (?) AND a = ?") (VInts [1; 2; 3]%Z) =
  (str "id IN (xX_PARAM_Xx,xX_PARAM_Xx,xX_PARAM_Xx) AND a = ?",
   [VInt KInt 1; VInt KInt 2; VInt KInt 3], []).
Proof.
  destruct (@sequence_argument_expansion (str "id IN (") (str ") AND a = ?")
              (VInts [1; 2; 3]%Z) [VInt KInt 1; VInt KInt 2; VInt KInt 3])
    as (H & _); [reflexivity|discriminate|reflexivity|].
  exact H.
Defined.

(** ** Parameters and the template *)

Lemma convertArg_independent a t1 t2 :
  snd (fst (convertArg t1 a)) = snd (fst (convertArg t2 a)) /\
  snd (convertArg t1 a) = snd (convertArg t2 a).
Proof.
  destruct a as [| | | | | | | | l | | l | | | r | q | m | m | | |];
    try (split; reflexivity).
  - cbn [convertArg]. destruct (0 <? length l); split; reflexivity.
  - cbn [convertArg]. destruct (0 <? length l); split; reflexivity.
  - destruct r; split; reflexivity.
  - destruct q as [[[sql ps] [e|]]|]; split; reflexivity.
  - destruct m; split; reflexivity.
  - destruct m; split; reflexivity.
Qed.

Lemma convertArgs_independent : forall args t1 t2 a1 a2 e1 e2,
  exists ps es,
    snd (fst (convertArgs t1 a1 e1 args)) = a1 ++ ps /\
    snd (fst (convertArgs t2 a2 e2 args)) = a2 ++ ps /\
    snd (convertArgs t1 a1 e1 args) = e1 ++ es /\
    snd (convertArgs t2 a2 e2 args) = e2 ++ es.
Proof.
  induction args as [|a args IH]; intros t1 t2 a1 a2 e1 e2.
  - exists [], []. simpl. now rewrite !app_nil_r.
  - cbn [convertArgs]. destruct (convertArg_independent a t1 t2) as (Hp & He).
    destruct (convertArg t1 a) as [[x1 p1] r1], (convertArg t2 a) as [[x2 p2] r2].
    simpl in Hp, He. subst p2 r2.
    destruct (IH x1 x2 (a1 ++ p1) (a2 ++ p1) (e1 ++ r1) (e2 ++ r1))
      as (ps & es & H1 & H2 & H3 & H4).
    exists (p1 ++ ps), (r1 ++ es). rewrite H1, H2, H3, H4.
    now rewrite <- !app_assoc.
Qed.

Lemma convertArgs_app : forall a b t ps es,
  convertArgs t ps es (a ++ b) =
  let '(t', ps', es') := convertArgs t ps es a in convertArgs t' ps' es' b.
Proof.
  induction a as [|x a IH]; intros b t ps es; [reflexivity|].
  cbn [app convertArgs]. destruct (convertArg t x) as [[t' p] e]. apply IH.
Qed.

Lemma makePart_Params t args :
  Params (makePart t args)
  = snd (fst (convertArgs (ReplaceAll t (str "??") tempPh) [] [] args)).
Proof.
  unfold makePart. now destruct (convertArgs _ [] [] args) as [[x p] e].
Qed.

(** X7: The parameter list of a fragment depends on the arguments only, never
    on the template, and the parameters of the arguments follow each other
    in argument order: those of a list of arguments followed by another are
    those of the first list followed by those of the second. *)
Theorem makePart_parameters t t' args args' :
  Params (makePart t args) = Params (makePart t' args) /\
  Params (makePart t (args ++ args'))
  = Params (makePart t args) ++ Params (makePart t' args').
Proof.
  rewrite !makePart_Params. split.
  - destruct (convertArgs_independent args (ReplaceAll t (str "??") tempPh)
                (ReplaceAll t' (str "??") tempPh) [] [] [] [])
      as (ps & es & H1 & H2 & _). now rewrite H1, H2.
  - rewrite convertArgs_app.
    destruct (convertArgs (ReplaceAll t (str "??") tempPh) [] [] args)
      as [[x p] e] eqn:Ea. cbn [fst snd].
    destruct (convertArgs_independent args' x (ReplaceAll t' (str "??") tempPh)
                p [] e []) as (ps & es & H1 & H2 & _).
    rewrite H1, H2. reflexivity.
Qed.

(** ** Placeholder tokens through masking, expansion and restoring *)

Section CoreFacts.

(** A sentinel [T] that neither continues nor holds the core of a
    placeholder token. *)
Variable T : gostring.
Hypothesis T_core :
  forall j X, j < length paramCore -> HasPrefix (T ++ X) (skipn j paramCore) = false.
Hypothesis core_T :
  forall i X, i < length T -> HasPrefix (skipn i T ++ X) paramCore = false.

Lemma masked_core_match : forall v j,
  j < length paramCore ->
  HasPrefix (replace_from (str "??") T 0 v) (skipn j paramCore) = true ->
  HasPrefix v (skipn j paramCore) = true.
Proof.
  induction v as [|c v IH]; intros j Hj H; [exact H|].
  cbn [replace_from] in H. destruct (HasPrefix (c :: v) (str "??")).
  - rewrite T_core in H by assumption. discriminate.
  - destruct (skipn_head paramCore Hj) as (t & Et). rewrite Et in *.
    cbn [HasPrefix] in H |- *. destruct (ascii_dec t c); [|discriminate].
    destruct (Nat.lt_ge_cases (S j) (length paramCore)) as [Hlt|Hge].
    + apply (IH (S j)); [lia|exact H].
    + rewrite skipn_all2 by lia. reflexivity.
Qed.

Lemma masked_without_core : forall v k,
  Index v paramCore = None ->
  Index (replace_from (str "??") T k v) paramCore = None.
Proof.
  induction v as [|c v IH]; intros k Hno; [now destruct k|].
  destruct (Index_None_cons _ _ _ Hno) as (Hp & Hno').
  destruct k as [|k]; [|simpl; now apply IH].
  cbn [replace_from]. destruct (HasPrefix (c :: v) (str "??")).
  - apply Index_app_None; [intros i Hi; now apply core_T|now apply IH].
  - assert (HasPrefix (c :: replace_from (str "??") T 0 v) paramCore = false) as Hc.
    { destruct (HasPrefix (c :: replace_from (str "??") T 0 v) paramCore) eqn:Ec;
        [|reflexivity].
      exfalso.
      destruct (@HasPrefix_cons_inv c _ paramCore ltac:(discriminate) Ec) as (Hy & Hback).
      rewrite (Hback v) in Hp; [discriminate|].
      apply (@masked_core_match v 1); [simpl; lia|exact Hy]. }
    rewrite (Index_cons _ _ _ Hc), (IH 0 Hno'). reflexivity.
Qed.

End CoreFacts.

(** In a text without the core of a token, expanding [n] question marks
    makes as many tokens as were expanded. *)
Lemma Count_fill_min : forall s n,
  Index s paramCore = None ->
  Count (fill n s) paramPh = Nat.min n (occ "?" s).
Proof.
  unfold Count. induction s as [|c s IH]; intros n Hno.
  - destruct n; reflexivity.
  - destruct (Index_None_cons _ _ _ Hno) as (_ & Hno').
    assert (HasPrefix (skipn 2 (c :: s)) paramCore = false) as Hcore
      by (apply Index_None_HasPrefix, Index_None_skipn, Hno).
    assert (HasPrefix (fill n (c :: s)) paramPh = true ->
            n <> 0 /\ c = "?"%char) as Horigin.
    { intros E. destruct (fill_token_origin _ _ E) as [Hq|Hk]; [|congruence].
      simpl in Hq. destruct (ascii_dec "?" c) as [<-|]; [|discriminate].
      split; [|reflexivity]. intros ->. discriminate. }
    destruct n as [|n].
    + rewrite fill_0. cbn [count_from].
      destruct (HasPrefix (c :: s) paramPh) eqn:E.
      * rewrite <- (fill_0 (c :: s)) in E. now destruct (Horigin E).
      * specialize (IH 0 Hno'). now rewrite fill_0 in IH.
    + cbn [fill] in *. destruct (ascii_dec c "?") as [->|Hc].
      * rewrite count_from_at by discriminate. rewrite (IH n Hno').
        unfold occ. simpl. destruct (ascii_dec "?" "?"); [|congruence]. lia.
      * cbn [count_from].
        destruct (HasPrefix (c :: fill (S n) s) paramPh) eqn:E.
        -- destruct (Horigin eq_refl) as (_ & ->). congruence.
        -- rewrite (IH (S n) Hno'). unfold occ. simpl.
           destruct (ascii_dec c "?"); [congruence|reflexivity].
Qed.

Lemma replace_skip_free old new : forall p Z,
  (forall i, i < length p -> HasPrefix (skipn i p ++ Z) old = false) ->
  replace_from old new 0 (p ++ Z) = p ++ replace_from old new 0 Z.
Proof.
  induction p as [|a p IH]; intros Z Hp; [reflexivity|].
  pose proof (Hp 0 ltac:(simpl; lia)) as H0. cbn [skipn] in H0.
  change ((a :: p) ++ Z) with (a :: (p ++ Z)) in *. cbn [replace_from].
  rewrite H0. cbn [app]. f_equal. apply IH. intros i Hi. apply (Hp (S i)). simpl. lia.
Qed.

Section CountRestore.

(** Replacing [old] by [new] all over, where neither string can take part
    in a placeholder token and no [old] starts inside a token. *)
Variables old new : gostring.
Hypothesis old_nonempty : old <> [].
Hypothesis new_token :
  forall i r, i < length new -> HasPrefix (skipn i new ++ r) paramPh = false.
Hypothesis old_token :
  forall i r, i < length old -> HasPrefix (skipn i old ++ r) paramPh = false.
Hypothesis token_old :
  forall i r, i < length paramPh -> HasPrefix (skipn i paramPh ++ r) old = false.
Hypothesis new_suffix :
  forall j r, j < length paramPh -> HasPrefix (new ++ r) (skipn j paramPh) = false.

Lemma restored_token_match : forall s j,
  j < length paramPh ->
  HasPrefix (replace_from old new 0 s) (skipn j paramPh) = true ->
  HasPrefix s (skipn j paramPh) = true.
Proof.
  induction s as [|c s IH]; intros j Hj H; [exact H|].
  cbn [replace_from] in H. destruct (HasPrefix (c :: s) old).
  - rewrite new_suffix in H by assumption. discriminate.
  - destruct (skipn_head paramPh Hj) as (t & Et). rewrite Et in *.
    cbn [HasPrefix] in H |- *. destruct (ascii_dec t c); [|discriminate].
    destruct (Nat.lt_ge_cases (S j) (length paramPh)) as [Hlt|Hge].
    + apply (IH (S j)); [lia|exact H].
    + rewrite skipn_all2 by lia. reflexivity.
Qed.

Lemma Count_restore : forall n s,
  length s <= n ->
  Count (ReplaceAll s old new) paramPh = Count s paramPh.
Proof.
  unfold Count, ReplaceAll.
  induction n as [|n IH]; intros s Hn.
  - destruct s; [reflexivity|simpl in Hn; lia].
  - destruct s as [|c s]; [reflexivity|].
    assert (0 < length old) as Hlo by (destruct old; [congruence|simpl; lia]).
    destruct (HasPrefix (c :: s) old) eqn:Eo.
    + rewrite (replace_from_at new old_nonempty _ Eo).
      pose proof (HasPrefix_split _ _ Eo) as Hs.
      pose proof (HasPrefix_length _ _ Eo) as Hl.
      set (r := skipn (length old) (c :: s)) in *.
      transitivity (count_from paramPh 0 (old ++ r)); [|now rewrite <- Hs].
      rewrite !count_skip_free by (intros i Hi; auto).
      apply IH. unfold r. rewrite length_skipn. simpl length in *. lia.
    + destruct (HasPrefix (c :: s) paramPh) eqn:Ep.
      * pose proof (HasPrefix_split _ _ Ep) as Hs.
        pose proof (HasPrefix_length _ _ Ep) as Hl.
        set (r := skipn (length paramPh) (c :: s)) in *.
        rewrite Hs.
        rewrite (@replace_skip_free old new paramPh r) by (intros i Hi; now apply token_old).
        rewrite !count_from_at by discriminate. f_equal.
        apply IH. unfold r. rewrite length_skipn.
        change (length paramPh) with 11 in *. simpl length in Hn, Hl |- *. lia.
      * cbn [replace_from count_from]. rewrite Eo, Ep.
        assert (HasPrefix (c :: replace_from old new 0 s) paramPh = false) as Ec.
        { destruct (HasPrefix (c :: replace_from old new 0 s) paramPh) eqn:Ec;
            [|reflexivity].
          exfalso.
          destruct (@HasPrefix_cons_inv c _ paramPh ltac:(discriminate) Ec) as (Hy & Hback).
          rewrite (Hback s) in Ep; [discriminate|].
          apply (@restored_token_match s 1); [simpl; lia|exact Hy]. }
        cbn [count_from]. rewrite Ec. apply IH. simpl in Hn. lia.
Qed.

End CountRestore.

Lemma Count_restore_tempPh s :
  Count (ReplaceAll s tempPh (str "??")) paramPh = Count s paramPh.
Proof.
  apply (@Count_restore tempPh (str "??")) with (n := length s);
    [discriminate| | | | |lia].
  - intros i r Hi. do 2 (destruct i as [|i]; [reflexivity|]). simpl in Hi. lia.
  - intros i r Hi. do 9 (destruct i as [|i]; [reflexivity|]). simpl in Hi. lia.
  - intros i r Hi. do 11 (destruct i as [|i]; [reflexivity|]). simpl in Hi. lia.
  - intros j r Hj. do 11 (destruct j as [|j]; [reflexivity|]). simpl in Hj. lia.
Qed.

Lemma Count_restore_tmpQ s :
  Count (ReplaceAll s tmpQ (str "?")) paramPh = Count s paramPh.
Proof.
  apply (@Count_restore tmpQ (str "?")) with (n := length s);
    [discriminate| | | | |lia].
  - intros i r Hi. destruct i as [|i]; [reflexivity|]. simpl in Hi. lia.
  - intros i r Hi. do 13 (destruct i as [|i]; [reflexivity|]). simpl in Hi. lia.
  - intros i r Hi. do 11 (destruct i as [|i]; [reflexivity|]). simpl in Hi. lia.
  - intros j r Hj. do 11 (destruct j as [|j]; [reflexivity|]). simpl in Hj. lia.
Qed.

Lemma tmpQ_without_core v k :
  Index v paramCore = None ->
  Index (replace_from (str "??") tmpQ k v) paramCore = None.
Proof.
  apply masked_without_core.
  - intros j X Hj. do 7 (destruct j as [|j]; [reflexivity|]). simpl in Hj. lia.
  - intros i X Hi. do 13 (destruct i as [|i]; [reflexivity|]). simpl in Hi. lia.
Qed.

(** X8: [makePart] with scalar arguments, on a template that does not hold the
    core [_PARAM_] of the placeholder token: the fragment has no error
    exactly when there are as many arguments as placeholders (question
    marks outside the escapes [??]); its text holds as many placeholder
    tokens as the smaller of the two numbers, and its parameters are the
    arguments.  So a fragment without error has one token per parameter. *)
Theorem makePart_scalar_balance t args :
  Forall (fun a => scalar a = true) args ->
  Contains t paramCore = false ->
  (Errs (makePart t args) = [] <->
   length args = Count (ReplaceAll t (str "??") tempPh) (str "?")) /\
  Count (Text (makePart t args)) paramPh
  = Nat.min (length args) (Count (ReplaceAll t (str "??") tempPh) (str "?")) /\
  Params (makePart t args) = args.
Proof.
  intros Hs Hcore. unfold makePart. rewrite (convertArgs_scalar _ _ _ Hs).
  unfold checkParamCounts. change (str "?") with ["?"%char].
  rewrite !Count_char, occ_question_expand. cbn [app length Text Params Errs].
  set (M := ReplaceAll t (str "??") tempPh).
  assert (Count (expand (length args) M) paramPh = Nat.min (length args) (occ "?" M)) as Hc.
  { rewrite expand_fill. apply Count_fill_min. unfold M, ReplaceAll.
    apply mask_keeps_core_out, Contains_None, Hcore. }
  split; [|split].
  - destruct (0 <? occ "?" M - length args) eqn:E1.
    + apply Nat.ltb_lt in E1. cbn [Errs]. split; [discriminate|lia].
    + apply Nat.ltb_ge in E1. rewrite Hc.
      destruct (Nat.min (length args) (occ "?" M) <? length args) eqn:E2.
      * apply Nat.ltb_lt in E2. cbn [Errs]. split; [discriminate|lia].
      * apply Nat.ltb_ge in E2. cbn [Errs]. split; [lia|reflexivity].
  - destruct (0 <? occ "?" M - length args);
      [|destruct (Count (expand (length args) M) paramPh <? length args)];
      cbn [Text]; now rewrite Count_restore_tempPh.
  - destruct (0 <? occ "?" M - length args);
      [|destruct (Count (expand (length args) M) paramPh <? length args)];
      reflexivity.
Qed.

Lemma makePart_scalar_balance_witness :
  Errs (makePart (str "a = ? AND b ?? ?") [VInt KInt 1; VString (str "x")]) = [] /\
  Count (Text (makePart (str "a = ? AND b ?? ?") [VInt KInt 1; VString (str "x")])) paramPh
  = 2.
Proof.
  destruct (@makePart_scalar_balance (str "a = ? AND b ?? ?")
              [VInt KInt 1; VString (str "x")]) as (He & Hc & _);
    [repeat constructor|reflexivity|].
  split; [apply He; reflexivity|exact Hc].
Defined.

(** X9: [Valf] with scalar arguments, at least as many as the template has
    placeholders, on a template that does not hold the core [_PARAM_]:
    the text returned holds one placeholder token per placeholder, and the
    parameters are all the arguments.  Tokens and parameters are as many
    only when the arguments are exactly as many as the placeholders. *)
Theorem Valf_scalar_tokens t args :
  Forall (fun a => scalar a = true) args ->
  Contains t paramCore = false ->
  Count (ReplaceAll t (str "??") tmpQ) (str "?") <= length args ->
  exists e,
    Valf t args = Returned e /\
    V e = args /\
    Count (F e) paramPh = Count (ReplaceAll t (str "??") tmpQ) (str "?").
Proof.
  intros Hs Hcore Hle. unfold Valf. rewrite (valfArgs_scalar _ _ Hs).
  change (str "?") with ["?"%char] in *. rewrite Count_char in *.
  rewrite Contains_char, occ_question_expand.
  replace (occ "?" (ReplaceAll t (str "??") tmpQ) - length args =? 0) with true
    by (symmetry; apply Nat.eqb_eq; lia).
  eexists. split; [reflexivity|]. split; [reflexivity|].
  cbn [F negb]. change ["?"%char] with (str "?").
  rewrite Count_restore_tmpQ, expand_fill, Count_fill_min.
  - lia.
  - unfold ReplaceAll. apply tmpQ_without_core, Contains_None, Hcore.
Qed.

Lemma Valf_scalar_tokens_witness :
  exists e,
    Valf (str "a = ?") [VInt KInt 1; VInt KInt 2] = Returned e /\
    V e = [VInt KInt 1; VInt KInt 2] /\
    Count (F e) paramPh = Count (ReplaceAll (str "a = ?") (str "??") tmpQ) (str "?").
Proof.
  apply (@Valf_scalar_tokens (str "a = ?") [VInt KInt 1; VInt KInt 2]).
  - repeat constructor.
  - reflexivity.
  - vm_compute. lia.
Defined.

(** ** Tokens that do not fit the scanner's buffer *)

Lemma Index_prefix_None s r p : Index (s ++ r) p = None -> Index s p = None.
Proof.
  intros H. destruct (Index s p) as [i|] eqn:E; [|reflexivity].
  rewrite (Index_app_window _ r _ E) in H. discriminate.
Qed.

Lemma scanLoop_unfold fuel replace fn s i sb :
  scanLoop (S fuel) replace fn s i sb =
  match Bufio.Scan (S (S (length (Bufio.rd s)))) (scanSplit replace) s with
  | Bufio.Token s' txt =>
      if gostring_eqb txt replace
      then match fn i with
           | Some r => scanLoop fuel replace fn s' (S i) (sb ++ r)
           | None => Panicked
           end
      else scanLoop fuel replace fn s' i (sb ++ txt)
  | Bufio.Stop s' => Returned (sb, Bufio.Err s')
  | Bufio.Panic => Panicked
  | Bufio.OutOfFuel => Diverged
  end.
Proof. reflexivity. Qed.

Lemma Scan_unfold fuel split s :
  Bufio.Scan (S fuel) split s =
  let continue (s : Bufio.Scanner) :=
    match Bufio.refill s with
    | inl s' => Bufio.Scan fuel split s'
    | inr s' => Bufio.Stop s'
    end in
  if (0 <? length (Bufio.win s)) || Bufio.is_set (Bufio.serr s) then
    let '(advance, token) := split (Bufio.win s) (Bufio.is_set (Bufio.serr s)) in
    if length (Bufio.win s) <? advance
    then Bufio.Stop (Bufio.setErr s Bufio.ErrAdvanceTooFar)
    else
      let s1 := Bufio.mkScanner (Bufio.rd s) (Bufio.buflen s) (Bufio.start s + advance)
                                (skipn advance (Bufio.win s)) (Bufio.serr s)
                                (Bufio.empties s) in
      match token with
      | Some tok =>
          if negb (Bufio.is_set (Bufio.serr s1)) || (0 <? advance) then
            Bufio.Token (Bufio.mkScanner (Bufio.rd s1) (Bufio.buflen s1) (Bufio.start s1)
                                         (Bufio.win s1) (Bufio.serr s1) 0) tok
          else if Bufio.maxConsecutiveEmptyReads <? S (Bufio.empties s1) then Bufio.Panic
          else Bufio.Token (Bufio.mkScanner (Bufio.rd s1) (Bufio.buflen s1) (Bufio.start s1)
                                            (Bufio.win s1) (Bufio.serr s1)
                                            (S (Bufio.empties s1))) tok
      | None => continue s1
      end
  else continue s.
Proof. reflexivity. Qed.

(** A window at the start of the buffer, with at least a buffer's worth of
    text ahead and no marker in it: refilling either gives up with
    [ErrTooLong] or reads more. *)
Lemma refill_without_marker rd buflen win empties :
  length win <= buflen -> buflen <= Bufio.MaxScanTokenSize ->
  Bufio.MaxScanTokenSize <= length win + length rd ->
  match Bufio.refill (Bufio.mkScanner rd buflen 0 win None empties) with
  | inr s' => Bufio.Err s' = Some Bufio.ErrTooLong
  | inl s' =>
      Bufio.serr s' = None /\ Bufio.start s' = 0 /\
      Bufio.win s' ++ Bufio.rd s' = win ++ rd /\
      length (Bufio.win s') <= Bufio.buflen s' /\
      Bufio.buflen s' <= Bufio.MaxScanTokenSize /\
      length (Bufio.rd s') < length rd
  end.
Proof.
  intros Hw Hb Hlong. pose proof buffer_sizes as (Hs1 & Hs2).
  unfold Bufio.refill. cbn [Bufio.serr Bufio.is_set].
  assert (Bufio.shift (Bufio.mkScanner rd buflen 0 win None empties)
          = Bufio.mkScanner rd buflen 0 win None empties) as -> by reflexivity.
  unfold Bufio.send. cbn [Bufio.start Bufio.win Bufio.buflen Nat.add].
  destruct (length win =? buflen) eqn:Efull.
  - apply Nat.eqb_eq in Efull.
    destruct (Bufio.MaxScanTokenSize <=? buflen) eqn:Emax; [reflexivity|].
    apply Nat.leb_gt in Emax.
    unfold Bufio.grow, Bufio.read, Bufio.send.
    cbn [Bufio.start Bufio.win Bufio.buflen Bufio.rd Bufio.serr Bufio.empties Nat.add].
    set (newSize := Nat.min (if buflen * 2 =? 0 then Bufio.startBufSize else buflen * 2)
                            Bufio.MaxScanTokenSize).
    assert (buflen < newSize <= Bufio.MaxScanTokenSize) as Hn.
    { unfold newSize. destruct (buflen * 2 =? 0) eqn:E0.
      - apply Nat.eqb_eq in E0. lia.
      - apply Nat.eqb_neq in E0. lia. }
    destruct (Nat.min (newSize - length win) (length rd) =? 0) eqn:En.
    + apply Nat.eqb_eq in En. lia.
    + apply Nat.eqb_neq in En.
      cbn [Bufio.start Bufio.win Bufio.buflen Bufio.rd Bufio.serr].
      rewrite length_app, length_firstn, length_skipn, <- app_assoc, firstn_skipn.
      repeat split; lia.
  - apply Nat.eqb_neq in Efull.
    unfold Bufio.read, Bufio.send.
    cbn [Bufio.start Bufio.win Bufio.buflen Bufio.rd Bufio.serr Bufio.empties Nat.add].
    destruct (Nat.min (buflen - length win) (length rd) =? 0) eqn:En.
    + apply Nat.eqb_eq in En. lia.
    + apply Nat.eqb_neq in En.
      cbn [Bufio.start Bufio.win Bufio.buflen Bufio.rd Bufio.serr].
      rewrite length_app, length_firstn, length_skipn, <- app_assoc, firstn_skipn.
      repeat split; lia.
Qed.

Lemma Scan_too_long ph : forall fuel rd buflen win empties,
  length win <= buflen -> buflen <= Bufio.MaxScanTokenSize ->
  Bufio.MaxScanTokenSize <= length win + length rd ->
  Index (firstn Bufio.MaxScanTokenSize (win ++ rd)) ph = None ->
  length rd + 2 <= fuel ->
  exists s',
    Bufio.Scan fuel (scanSplit ph) (Bufio.mkScanner rd buflen 0 win None empties)
      = Bufio.Stop s' /\
    Bufio.Err s' = Some Bufio.ErrTooLong.
Proof.
  induction fuel as [|fuel IH]; intros rd buflen win empties Hw Hb Hlong Hno Hfuel;
    [lia|].
  assert (Index win ph = None) as Hwin.
  { rewrite firstn_app in Hno. rewrite firstn_all2 in Hno by lia.
    now apply Index_prefix_None in Hno. }
  pose proof (@refill_without_marker rd buflen win empties Hw Hb Hlong) as Hr.
  assert (exists s',
            match Bufio.refill (Bufio.mkScanner rd buflen 0 win None empties) with
            | inl s' => Bufio.Scan fuel (scanSplit ph) s'
            | inr s' => Bufio.Stop s'
            end = Bufio.Stop s' /\ Bufio.Err s' = Some Bufio.ErrTooLong) as Hcont.
  { destruct (Bufio.refill (Bufio.mkScanner rd buflen 0 win None empties))
      as [s'|s'].
    - destruct s' as [rd' buflen' start' win' serr' empties'].
      cbn [Bufio.serr Bufio.start Bufio.win Bufio.rd Bufio.buflen] in Hr.
      destruct Hr as (-> & -> & Heq & Hw' & Hb' & Hlt).
      apply IH; try assumption.
      + rewrite <- length_app, Heq, length_app. exact Hlong.
      + now rewrite Heq.
      + lia.
    - exists s'. now split. }
  rewrite Scan_unfold. cbv zeta.
  cbn [Bufio.win Bufio.serr Bufio.is_set Bufio.rd Bufio.buflen Bufio.start Bufio.empties].
  rewrite orb_false_r. destruct (0 <? length win) eqn:Ew.
  - unfold scanSplit. cbn [andb]. rewrite Hwin.
    change (length win <? 0) with false. cbv iota.
    change (skipn 0 win) with win. change (0 + 0) with 0.
    exact Hcont.
  - exact Hcont.
Qed.

(** X10: Whatever the replacement function: when the first 64 KiB of the text
    hold no occurrence of the marker and the text is at least that long,
    [scanReplace] returns the error [ErrTooLong] and the empty text, the
    text before the first marker included. *)
Theorem scanReplace_token_too_long stmt marker fn :
  Bufio.MaxScanTokenSize <= length stmt ->
  Index (firstn Bufio.MaxScanTokenSize stmt) marker = None ->
  scanReplace stmt marker fn = Returned ([], Some Bufio.ErrTooLong).
Proof.
  intros Hlong Hno. unfold scanReplace. rewrite scanLoop_unfold.
  pose proof buffer_sizes as (_ & Hmax).
  destruct (@Scan_too_long marker (S (S (length stmt))) stmt 0 [] 0)
    as (s' & Hscan & Herr);
    [cbn [length]; lia|lia|cbn [length Nat.add]; lia|exact Hno|lia|].
  unfold Bufio.NewScanner. cbn [Bufio.rd]. rewrite Hscan, Herr. reflexivity.
Qed.

Lemma scanReplace_token_too_long_witness :
  scanReplace (long_text ++ paramPh) paramPh (total dollar)
  = Returned ([], Some Bufio.ErrTooLong).
Proof.
  apply scanReplace_token_too_long.
  - apply Nat.leb_le. vm_compute. reflexivity.
  - vm_compute. reflexivity.
Defined.

(** ** Literal inlining of every parameter *)

Section PartialReplacement.

Variable ph : gostring.
Hypothesis ph_nonempty : ph <> [].

Lemma count_before_marker : forall t k,
  Index t ph = Some k -> count_from ph 0 t = count_from ph 0 (skipn k t).
Proof.
  induction t as [|c t IH]; intros k H.
  - now destruct k.
  - destruct (HasPrefix (c :: t) ph) eqn:E.
    + simpl in H. rewrite E in H. injection H as <-. reflexivity.
    + rewrite (Index_cons _ _ _ E) in H.
      destruct (Index t ph) as [j|] eqn:Ej; [|discriminate]. injection H as <-.
      cbn [count_from skipn]. rewrite E. now apply IH.
Qed.

Lemma count_no_marker : forall t, Index t ph = None -> count_from ph 0 t = 0.
Proof.
  induction t as [|c t IH]; intros H; [reflexivity|].
  destruct (HasPrefix (c :: t) ph) eqn:E.
  - simpl in H. rewrite E in H. discriminate.
  - rewrite (Index_cons _ _ _ E) in H. cbn [count_from]. rewrite E.
    apply IH. now destruct (Index t ph).
Qed.

(** The scanner's first token decides whether the count of the remaining
    text starts with an occurrence. *)
Lemma count_first_token t :
  t <> [] ->
  count_from ph 0 t =
  if gostring_eqb (first_token ph t) ph
  then S (count_from ph 0 (skipn (length (first_token ph t)) t))
  else count_from ph 0 (skipn (length (first_token ph t)) t).
Proof.
  intros Ht. unfold first_token. destruct (Index t ph) as [[|k]|] eqn:E.
  - pose proof (Index_Some_0 _ _ E) as Hp.
    rewrite (HasPrefix_firstn _ _ Hp), gostring_eqb_refl.
    rewrite (HasPrefix_split _ _ Hp) at 1. now apply count_from_at.
  - pose proof (Index_bound _ _ E) as Hb.
    destruct (gostring_eqb (firstn (S k) t) ph) eqn:Eq.
    + apply gostring_eqb_eq in Eq.
      assert (HasPrefix t ph = true) as Hp.
      { rewrite <- (firstn_skipn (S k) t), Eq. apply HasPrefix_app. }
      rewrite (Index_HasPrefix _ _ Hp) in E. discriminate.
    + rewrite length_firstn, Nat.min_l by lia. now apply count_before_marker.
  - destruct (gostring_eqb t ph) eqn:Eq.
    + apply gostring_eqb_eq in Eq. subst t.
      rewrite (@Index_HasPrefix ph ph) in E; [discriminate|].
      rewrite <- (app_nil_r ph) at 1. apply HasPrefix_app.
    + rewrite skipn_all. now apply count_no_marker.
Qed.

Variable fn : replaceFn.

(** A replacement function that is defined on every occurrence index the
    text reaches. *)
Lemma scanLoop_defined (g : nat -> gostring) fuel : forall s t i sb,
  good s t -> length t < fuel -> length t < Bufio.MaxScanTokenSize ->
  (forall j, i <= j < i + count_from ph 0 t -> fn j = Some (g j)) ->
  scanLoop fuel ph fn s i sb = Returned (sb ++ subst_from ph g 0 i t, None).
Proof.
  induction fuel as [|fuel IH]; intros s t i sb Hg Hfuel Hshort Hfn; [lia|].
  rewrite scanLoop_unfold.
  assert (measure s < S (S (length (Bufio.rd s)))) as Hm.
  { unfold measure. destruct (Bufio.serr s); lia. }
  pose proof (Scan_spec ph_nonempty Hg Hm) as Hs.
  destruct (Bufio.Scan (S (S (length (Bufio.rd s)))) (scanSplit ph) s)
    as [s' tok|s'| |]; try contradiction.
  - destruct Hs as (Hne & Htok & Hg').
    pose proof (first_token_pos ph_nonempty Hne) as Hpos.
    pose proof (first_token_prefix ph t) as (_ & Hle).
    pose proof (subst_first_token ph_nonempty g i Hne) as Hsub.
    pose proof (count_first_token Hne) as Hcnt.
    rewrite <- Htok in *.
    assert (length (skipn (length tok) t) < fuel) as Hfuel'
      by (rewrite length_skipn; lia).
    assert (length (skipn (length tok) t) < Bufio.MaxScanTokenSize) as Hshort'
      by (rewrite length_skipn; lia).
    destruct (gostring_eqb tok ph).
    + rewrite (Hfn i) by lia.
      rewrite (IH s' _ (S i) (sb ++ g i) Hg' Hfuel' Hshort').
      * now rewrite Hsub, app_assoc.
      * intros j Hj. apply Hfn. lia.
    + rewrite (IH s' _ i (sb ++ tok) Hg' Hfuel' Hshort').
      * now rewrite Hsub, app_assoc.
      * intros j Hj. apply Hfn. lia.
  - destruct Hs as [(-> & He)|(He & Hlong)]; [|lia].
    rewrite He. cbn [subst_from]. now rewrite app_nil_r.
Qed.

(** A replacement function that panics at an occurrence index the text
    reaches. *)
Lemma scanLoop_undefined fuel : forall s t i sb,
  good s t -> length t < fuel -> length t < Bufio.MaxScanTokenSize ->
  (exists j, i <= j < i + count_from ph 0 t /\ fn j = None) ->
  scanLoop fuel ph fn s i sb = Panicked.
Proof.
  induction fuel as [|fuel IH]; intros s t i sb Hg Hfuel Hshort Hfn; [lia|].
  rewrite scanLoop_unfold.
  assert (measure s < S (S (length (Bufio.rd s)))) as Hm.
  { unfold measure. destruct (Bufio.serr s); lia. }
  pose proof (Scan_spec ph_nonempty Hg Hm) as Hs.
  destruct (Bufio.Scan (S (S (length (Bufio.rd s)))) (scanSplit ph) s)
    as [s' tok|s'| |]; try contradiction.
  - destruct Hs as (Hne & Htok & Hg').
    pose proof (first_token_pos ph_nonempty Hne) as Hpos.
    pose proof (first_token_prefix ph t) as (_ & Hle).
    pose proof (count_first_token Hne) as Hcnt.
    rewrite <- Htok in *.
    assert (length (skipn (length tok) t) < fuel) as Hfuel'
      by (rewrite length_skipn; lia).
    assert (length (skipn (length tok) t) < Bufio.MaxScanTokenSize) as Hshort'
      by (rewrite length_skipn; lia).
    destruct Hfn as (j & Hj & Hnone).
    destruct (gostring_eqb tok ph).
    + destruct (fn i) as [r|] eqn:Ei; [|reflexivity].
      apply (IH s' _ (S i) (sb ++ r) Hg' Hfuel' Hshort').
      exists j. split; [|exact Hnone].
      assert (j <> i) by congruence. lia.
    + apply (IH s' _ i (sb ++ tok) Hg' Hfuel' Hshort').
      exists j. split; [lia|exact Hnone].
  - destruct Hs as [(-> & He)|(He & Hlong)]; [|lia].
    destruct Hfn as (j & Hj & _). cbn [count_from] in Hj. lia.
Qed.

End PartialReplacement.

Lemma rawParams_ok params :
  Forall (fun p => snd (paramToRaw p) = None) params ->
  rawParams params = inl (map (fun p => fst (paramToRaw p)) params).
Proof.
  induction 1 as [|p ps Hp _ IH]; [reflexivity|].
  cbn [rawParams map]. destruct (paramToRaw p) as [r e]. cbn [snd fst] in *.
  subst e. now rewrite IH.
Qed.

Lemma paramPh_nonempty : paramPh <> [].
Proof. discriminate. Qed.

(** X11: Rendering under [RAW] when every parameter has a literal, for a text
    shorter than 64 KiB: with at least as many parameters as placeholder
    tokens, the [i]-th token becomes the literal of the [i]-th parameter
    and no error is returned (parameters beyond the tokens are dropped
    silently); with fewer parameters than tokens, [raws[i]] is indexed out
    of range and the call panics. *)
Theorem RAW_inlining sql params :
  length sql < Bufio.MaxScanTokenSize ->
  Forall (fun p => snd (paramToRaw p) = None) params ->
  dialectReplace RAW sql params =
  if Count sql paramPh <=? length params
  then Returned (replace_occurrences paramPh
                   (fun i => fst (paramToRaw (nth i params VNil))) sql, None)
  else Panicked.
Proof.
  intros Hshort Hok. unfold dialectReplace. rewrite (rawParams_ok Hok).
  unfold replaceWithScans. cbn [runScans pattern fn]. unfold scanReplace.
  set (raws := map (fun p => fst (paramToRaw p)) params).
  assert (length raws = length params) as Hlen by apply length_map.
  unfold Count. destruct (count_from paramPh 0 sql <=? length params) eqn:E.
  - apply Nat.leb_le in E.
    rewrite (@scanLoop_defined paramPh paramPh_nonempty (fun i => nth_error raws i)
               (fun i => fst (paramToRaw (nth i params VNil)))
               (S (length sql)) (Bufio.NewScanner sql) sql 0 []);
      [reflexivity|apply good_NewScanner|lia|exact Hshort|].
    intros j Hj. unfold raws. rewrite nth_error_map.
    rewrite (nth_error_nth' params VNil) by lia. reflexivity.
  - apply Nat.leb_gt in E.
    rewrite (@scanLoop_undefined paramPh paramPh_nonempty (fun i => nth_error raws i)
               (S (length sql)) (Bufio.NewScanner sql) sql 0 []);
      [reflexivity|apply good_NewScanner|lia|exact Hshort|].
    exists (length params). split; [lia|]. apply nth_error_None. lia.
Qed.

Lemma RAW_inlining_witness :
  dialectReplace RAW (str "a = xX_PARAM_Xx AND b = xX_PARAM_Xx")
                 [VInt KInt 1; VString (str "x"); VNil]
  = Returned (str "a = 1 AND b = 'x'", None) /\
  dialectReplace RAW (str "a = xX_PARAM_Xx AND b = xX_PARAM_Xx") [VInt KInt 1]
  = Panicked.
Proof.
  split.
  - rewrite RAW_inlining.
    + vm_compute. reflexivity.
    + apply Nat.ltb_lt. vm_compute. reflexivity.
    + repeat constructor.
  - rewrite RAW_inlining.
    + vm_compute. reflexivity.
    + apply Nat.ltb_lt. vm_compute. reflexivity.
    + repeat constructor.
Defined.

(** ** The empty marker *)

(** With the empty marker, the split function answers a non-empty window
    that has not seen the end of input with the empty token and no advance;
    [Scan] hands it out and stays where it is. *)
Lemma Scan_empty_marker fuel s :
  Bufio.win s <> [] -> Bufio.serr s = None ->
  Bufio.Scan (S fuel) (scanSplit []) s =
  Bufio.Token (Bufio.mkScanner (Bufio.rd s) (Bufio.buflen s) (Bufio.start s + 0)
                               (Bufio.win s) None 0) [].
Proof.
  intros Hw He. rewrite Scan_unfold. cbv zeta. rewrite He.
  destruct (Bufio.win s) as [|c w] eqn:Ew; [congruence|].
  cbn [length Nat.ltb Nat.leb orb Bufio.is_set].
  unfold scanSplit. cbn [andb Index HasPrefix length firstn skipn Nat.ltb Nat.leb].
  cbn [Bufio.serr Bufio.is_set negb orb Bufio.rd Bufio.buflen Bufio.start Bufio.win].
  reflexivity.
Qed.

Lemma scanLoop_empty_marker f : forall fuel s i sb,
  Bufio.win s <> [] -> Bufio.serr s = None ->
  scanLoop fuel [] (total f) s i sb = Diverged.
Proof.
  induction fuel as [|fuel IH]; intros s i sb Hw He; [reflexivity|].
  rewrite scanLoop_unfold, (Scan_empty_marker _ _ Hw He), gostring_eqb_refl.
  unfold total. apply IH; [exact Hw|reflexivity].
Qed.

(** The first refill of a scanner over a non-empty text reads some of it. *)
Lemma refill_NewScanner stmt :
  stmt <> [] ->
  exists s', Bufio.refill (Bufio.NewScanner stmt) = inl s' /\
             Bufio.win s' <> [] /\ Bufio.serr s' = None.
Proof.
  intros Hne. pose proof buffer_sizes as (Hs1 & Hs2).
  unfold Bufio.refill, Bufio.NewScanner. cbn [Bufio.serr Bufio.is_set].
  assert (Bufio.shift (Bufio.mkScanner stmt 0 0 [] None 0)
          = Bufio.mkScanner stmt 0 0 [] None 0) as -> by reflexivity.
  unfold Bufio.send. cbn [Bufio.start Bufio.win Bufio.buflen Nat.add length Nat.eqb].
  destruct (Bufio.MaxScanTokenSize <=? 0) eqn:Emax; [apply Nat.leb_le in Emax; lia|].
  unfold Bufio.grow, Bufio.read, Bufio.send.
  cbn [Bufio.start Bufio.win Bufio.buflen Bufio.rd Bufio.serr Bufio.empties
       Nat.add Nat.mul Nat.eqb length app].
  destruct stmt as [|c stmt]; [congruence|].
  destruct (Nat.min (Nat.min Bufio.startBufSize Bufio.MaxScanTokenSize - 0)
                    (length (c :: stmt)) =? 0) eqn:En.
  - apply Nat.eqb_eq in En. cbn [length] in En. lia.
  - apply Nat.eqb_neq in En. eexists. split; [reflexivity|].
    cbn [Bufio.win Bufio.serr]. split; [|reflexivity].
    destruct (Nat.min (Nat.min Bufio.startBufSize Bufio.MaxScanTokenSize - 0)
                      (length (c :: stmt))); [congruence|discriminate].
Qed.

(** X12: With the empty marker, a non-empty text and a replacement function
    that does not panic, [scanReplace] never returns, whatever the number
    of rounds allowed: every call of [Scan]
    gives the empty token without advancing, the token equals the marker,
    and the loop writes one replacement after the other.  On the empty
    text every marker gives the empty text and no error. *)
Theorem scanReplace_empty_marker stmt f fuel :
  stmt <> [] ->
  scanLoop fuel [] (total f) (Bufio.NewScanner stmt) 0 [] = Diverged /\
  scanReplace stmt [] (total f) = Diverged /\
  (forall marker fn, scanReplace [] marker fn = Returned ([], None)).
Proof.
  intros Hne.
  assert (forall n, scanLoop n [] (total f) (Bufio.NewScanner stmt) 0 [] = Diverged) as H.
  { intros [|n]; [reflexivity|]. rewrite scanLoop_unfold.
    destruct (refill_NewScanner Hne) as (s' & Hr & Hw & He).
    rewrite Scan_unfold. cbv zeta.
    cbn [Bufio.NewScanner Bufio.win Bufio.serr Bufio.is_set length Nat.ltb Nat.leb orb].
    change (Bufio.mkScanner stmt 0 0 [] None 0) with (Bufio.NewScanner stmt).
    rewrite Hr. cbn [Bufio.rd Bufio.NewScanner].
    rewrite (Scan_empty_marker _ _ Hw He), gostring_eqb_refl. unfold total.
    apply scanLoop_empty_marker; [exact Hw|reflexivity]. }
  split; [apply H|]. split; [apply H|].
  intros marker fn. vm_compute. reflexivity.
Qed.

Lemma scanReplace_empty_marker_witness :
  scanLoop 1000 [] (total dollar) (Bufio.NewScanner (str "a")) 0 [] = Diverged /\
  scanReplace (str "a") [] (total dollar) = Diverged /\
  (forall marker fn, scanReplace [] marker fn = Returned ([], None)).
Proof. apply scanReplace_empty_marker. discriminate. Defined.

(** ** Arguments that [Group] rejects *)

Lemma groupLoop_panicked : forall exprs newFs newV,
  groupLoop newFs newV exprs = Panicked ->
  Exists (fun x => intfToExpr x = Panicked) exprs.
Proof.
  induction exprs as [|x exprs IH]; intros newFs newV H; [discriminate|].
  cbn [groupLoop] in H. destruct (intfToExpr x) as [e| |] eqn:Ex.
  - right. now apply IH in H.
  - now left.
  - discriminate.
Qed.

(** X13: [Group] panics exactly when [intfToExpr] rejects one of its arguments,
    wherever the argument stands; an argument that is neither a string nor
    an [Expr] is always rejected, so that [getExprs] panics on it as well. *)
Theorem Group_rejects sep exprs :
  (Group sep exprs = Panicked <-> Exists (fun x => intfToExpr x = Panicked) exprs) /\
  (forall x, In x exprs ->
     match x with VString _ | VExpr _ _ => False | _ => True end ->
     Group sep exprs = Panicked /\ getExprs exprs = Panicked).
Proof.
  assert (Exists (fun x => intfToExpr x = Panicked) exprs -> Group sep exprs = Panicked)
    as Hex.
  { intros H. apply Exists_exists in H. destruct H as (x & Hin & Hp).
    unfold Group. now rewrite (groupLoop_panics _ _ _ _ Hin Hp). }
  split; [split; [|exact Hex]|].
  - unfold Group. intros H.
    destruct (groupLoop [] [] exprs) as [[newFs newV]| |] eqn:E;
      [discriminate| |discriminate].
    now apply groupLoop_panicked in E.
  - intros x Hin Hx.
    assert (Group sep exprs = Panicked) as Hg.
    { apply Hex, Exists_exists. exists x. split; [exact Hin|].
      destruct x; try reflexivity; contradiction. }
    split; [exact Hg|].
    pose proof (groupLoop_getExprsLoop exprs [] [] []) as Hl.
    unfold Group in Hg. unfold getExprs.
    destruct (getExprsLoop [] exprs) as [all| |]; [|reflexivity|contradiction].
    destruct Hl as (es & _ & Hl). rewrite Hl in Hg. discriminate.
Qed.

Lemma Group_rejects_witness :
  Group (str ", ") [VString (str "a = 1"); VInt KInt 7] = Panicked /\
  getExprs [VString (str "a = 1"); VInt KInt 7] = Panicked.
Proof.
  destruct (@Group_rejects (str ", ") [VString (str "a = 1"); VInt KInt 7]) as (_ & H).
  apply (H (VInt KInt 7)); [right; left; reflexivity|exact I].
Defined.

(** ** Question marks inside embedded text *)

(** X14: The raw text of an [Embedded] or [Embedder] argument is spliced into
    the template unmasked: a question mark in it is the first one left, and
    the next argument takes it.  The parameter is then bound inside the
    embedded text, and the question mark the template had for it stays. *)
Theorem embedded_question_mark_taken pre post r1 r2 arg a :
  occ "?" pre = 0 -> occ "?" r1 = 0 -> scalar a = true ->
  arg = VEmbedded (r1 ++ str "?" ++ r2) \/ arg = VEmbedder (r1 ++ str "?" ++ r2) ->
  convertArgs (pre ++ str "?" ++ post) [] [] [arg; a]
  = (pre ++ r1 ++ paramPh ++ r2 ++ post, [a], []).
Proof.
  intros Hpre Hr1 Ha Harg.
  assert (convertArg (pre ++ str "?" ++ post) arg
          = ((pre ++ r1) ++ str "?" ++ (r2 ++ post), [], [])) as H1.
  { destruct Harg as [-> | ->]; cbn [convertArg];
      rewrite Replace1_first by exact Hpre; now rewrite <- !app_assoc. }
  assert (convertArg ((pre ++ r1) ++ str "?" ++ (r2 ++ post)) a
          = ((pre ++ r1) ++ paramPh ++ (r2 ++ post), [a], [])) as H2.
  { assert (occ "?" (pre ++ r1) = 0) as Ho by (rewrite occ_app; lia).
    destruct a; try discriminate; cbn [convertArg];
      now rewrite Replace1_first by exact Ho. }
  cbn [convertArgs]. rewrite H1, H2. cbn [app]. now rewrite <- !app_assoc.
Qed.

Lemma embedded_question_mark_taken_witness :
  convertArgs (str "? = ?") [] [] [VEmbedded (str "a?b"); VInt KInt 1]
  = (str "axX_PARAM_Xxb = ?", [VInt KInt 1], []).
Proof.
  apply (@embedded_question_mark_taken [] (str " = ?") (str "a") (str "b")
           (VEmbedded (str "a?b")) (VInt KInt 1));
    [reflexivity|reflexivity|reflexivity|left; reflexivity].
Defined.

(** ** The errors of a fragment *)

Lemma convertArgs_errs : forall args t ps es,
  snd (convertArgs t ps es args) = es ++ flat_map (fun a => snd (convertArg [] a)) args.
Proof.
  induction args as [|a args IH]; intros t ps es.
  - simpl. now rewrite app_nil_r.
  - cbn [convertArgs flat_map]. destruct (convertArg_independent a t []) as (_ & He).
    destruct (convertArg t a) as [[x p] e]. cbn [snd] in He. rewrite IH, <- He.
    now rewrite <- app_assoc.
Qed.

(** X15: The errors of a fragment are those the arguments raise, in argument
    order and whatever the template, followed by at most one error of the
    count check.  That error quotes the template as it was given and the
    number of parameters gathered, which is not the number of arguments
    once a sequence, a nested query or embedded text is among them; a
    question mark left over takes precedence over a missing one. *)
Theorem makePart_errors t args :
  exists tail,
    Errs (makePart t args) = flat_map (fun a => snd (convertArg [] a)) args ++ tail /\
    (tail = [] \/
     tail = [ExtraMark t (length (Params (makePart t args)))] \/
     tail = [MissingMark t (length (Params (makePart t args)))]).
Proof.
  unfold makePart.
  pose proof (convertArgs_errs args (ReplaceAll t (str "??") tempPh) [] []) as He.
  destruct (convertArgs (ReplaceAll t (str "??") tempPh) [] [] args) as [[x p] e].
  cbn [snd app] in He. subst e. cbn [Errs Params]. unfold checkParamCounts.
  destruct (0 <? Count x (str "?")).
  - eexists. split; [reflexivity|]. right. left. reflexivity.
  - destruct (Count x paramPh <? length p).
    + eexists. split; [reflexivity|]. right. right. reflexivity.
    + exists []. split; [now rewrite app_nil_r|]. left. reflexivity.
Qed.

(** ** From a fragment back to its template *)

Lemma render_core_match : forall t n k j,
  j < length paramCore ->
  HasPrefix (render (str "??") n k t) (skipn j paramCore) = true ->
  HasPrefix (skipn k t) (skipn j paramCore) = true.
Proof.
  induction t as [|c t IH]; intros n k j Hj H; [now destruct k|].
  destruct k as [|k]; [|cbn [render skipn] in *; now apply IH with n].
  cbn [render] in H. cbn [skipn].
  destruct (HasPrefix (c :: t) (str "??")).
  - exfalso. clear -Hj H.
    do 7 (destruct j as [|j]; [simpl in H; discriminate|]). simpl in Hj. lia.
  - destruct (ascii_dec c "?") as [->|Hc].
    + exfalso. clear -Hj H. destruct n as [|n];
        do 7 (destruct j as [|j]; [simpl in H; discriminate|]); simpl in Hj; lia.
    + destruct (skipn_head paramCore Hj) as (t0 & Et). rewrite Et in *.
      cbn [HasPrefix] in H |- *. destruct (ascii_dec t0 c); [|discriminate].
      destruct (Nat.lt_ge_cases (S j) (length paramCore)) as [Hlt|Hge].
      * apply (IH n 0 (S j)); [lia|exact H].
      * rewrite skipn_all2 by lia. reflexivity.
Qed.

(** Where the text of a fragment shows a placeholder token, the template
    has a question mark there or the core of a token two bytes further. *)
Lemma render_token_origin n t :
  HasPrefix (render (str "??") n 0 t) paramPh = true ->
  HasPrefix t (str "?") = true \/ HasPrefix (skipn 2 t) paramCore = true.
Proof.
  intros H. destruct t as [|c s]; [discriminate|].
  cbn [render] in H. destruct (HasPrefix (c :: s) (str "??")) eqn:E2.
  - left. apply HasPrefix_trans with (str "??"); [exact E2|reflexivity].
  - destruct (ascii_dec c "?") as [->|Hc]; [now left|right].
    destruct s as [|c1 s]; [simpl in H; destruct (ascii_dec "x" c); discriminate|].
    cbn [render] in H. destruct (HasPrefix (c1 :: s) (str "??")).
    + simpl in H. destruct (ascii_dec "x" c); discriminate.
    + destruct (ascii_dec c1 "?") as [->|Hc1].
      * destruct n; simpl in H; destruct (ascii_dec "x" c); discriminate.
      * simpl skipn. apply (@render_core_match s n 0 0); [simpl; lia|].
        simpl in H. destruct (ascii_dec "x" c); [|discriminate].
        destruct (ascii_dec "X" c1); [|discriminate].
        apply HasPrefix_trans with (str "_PARAM_Xx"); [exact H|reflexivity].
Qed.

(** Turning the placeholder tokens of a fragment's text into question marks
    gives the template back, when the template does not hold the core of a
    token. *)
Lemma unrender : forall t n k,
  Index t paramCore = None ->
  replace_from paramPh (str "?") 0 (render (str "??") n k t) = skipn k t.
Proof.
  induction t as [|c t IH]; intros n k Hno; [now destruct k|].
  destruct (Index_None_cons _ _ _ Hno) as (_ & Hno').
  destruct k as [|k]; [|cbn [render skipn]; now apply IH].
  cbn [skipn]. destruct (HasPrefix (c :: t) (str "??")) eqn:E2.
  - cbn [render]. rewrite E2.
    rewrite replace_skip_free
      by (intros i Hi; do 2 (destruct i as [|i]; [reflexivity|]); simpl in Hi; lia).
    rewrite IH by assumption.
    pose proof (HasPrefix_split _ _ E2) as Hs.
    change (skipn (length (str "??")) (c :: t)) with (skipn 1 t) in Hs.
    symmetry. exact Hs.
  - destruct (ascii_dec c "?") as [->|Hc].
    + cbn [render]. rewrite E2. destruct (ascii_dec "?" "?"); [|congruence].
      destruct n as [|n].
      * cbn [replace_from].
        change (HasPrefix ("?"%char :: render (str "??") 0 0 t) paramPh) with false.
        cbv iota. f_equal. rewrite (IH 0 0) by assumption. reflexivity.
      * rewrite (@replace_from_at paramPh (str "?") paramPh_nonempty)
          by apply HasPrefix_app.
        rewrite skipn_app, skipn_all, Nat.sub_diag. cbn [skipn app].
        rewrite (IH n 0) by assumption. reflexivity.
    + assert (render (str "??") n 0 (c :: t) = c :: render (str "??") n 0 t) as Hr.
      { cbn [render]. rewrite E2. destruct (ascii_dec c "?"); [congruence|reflexivity]. }
      assert (HasPrefix (c :: render (str "??") n 0 t) paramPh = false) as Hp.
      { destruct (HasPrefix (c :: render (str "??") n 0 t) paramPh) eqn:E; [|reflexivity].
        exfalso. rewrite <- Hr in E.
        destruct (render_token_origin _ _ E) as [Hq|Hk].
        - simpl in Hq. destruct (ascii_dec "?" c); [congruence|discriminate].
        - rewrite (Index_None_HasPrefix _ _ (Index_None_skipn _ _ 2 Hno)) in Hk.
          discriminate. }
      rewrite Hr. cbn [replace_from]. rewrite Hp. f_equal.
      rewrite (IH n 0) by assumption. reflexivity.
Qed.

Lemma MYSQL_short sql params :
  length sql < Bufio.MaxScanTokenSize ->
  dialectReplace MYSQL sql params = Returned (ReplaceAll sql paramPh (str "?"), None).
Proof.
  intros Hlt.
  destruct (scanReplace_spec paramPh_nonempty (fun _ => questionMark) sql)
    as (out & e & Hrun & Hok & Hshort).
  unfold dialectReplace, replaceWithScans. cbn [runScans pattern fn].
  change (scanReplace sql paramPh (fun _ => Some questionMark))
    with (scanReplace sql paramPh (total (fun _ => questionMark))).
  rewrite Hrun, (Hshort Hlt), (Hok (Hshort Hlt)).
  unfold replace_occurrences. rewrite subst_from_const. reflexivity.
Qed.

(** X16: A fragment built by [makePart] from scalar arguments renders under
    [MYSQL] and [SQL] to the very template it was built from, escapes [??]
    included and whether or not the arguments are as many as the
    placeholders: for a template that holds neither the core [_PARAM_] of
    the placeholder token nor the first six bytes of the mask of
    [makePart], and a fragment text shorter than 64 KiB. *)
Theorem native_round_trip t args :
  Forall (fun a => scalar a = true) args ->
  Contains t paramCore = false ->
  Contains t tempPhCore = false ->
  length (Text (makePart t args)) < Bufio.MaxScanTokenSize ->
  dialectReplace MYSQL (Text (makePart t args)) (Params (makePart t args))
  = Returned (t, None) /\
  dialectReplace SQL (Text (makePart t args)) (Params (makePart t args))
  = Returned (t, None).
Proof.
  intros Hs Hcore Htemp Hlt.
  assert (Text (makePart t args) = render (str "??") (length args) 0 t) as Ht.
  { unfold makePart. rewrite (convertArgs_scalar _ _ _ Hs). cbn [Text].
    unfold ReplaceAll. rewrite expand_fill.
    now rewrite (@tempPh_render (str "??") t (length args) (Contains_None _ _ Htemp)). }
  assert (dialectReplace MYSQL (Text (makePart t args)) (Params (makePart t args))
          = Returned (t, None)) as Hm.
  { rewrite (@MYSQL_short _ _ Hlt). unfold ReplaceAll. rewrite Ht.
    rewrite (unrender t (length args) 0 (Contains_None _ _ Hcore)). reflexivity. }
  split; [exact Hm|].
  assert (forall sql params, dialectReplace SQL sql params = dialectReplace MYSQL sql params)
    as Heq by (intros; unfold dialectReplace; reflexivity).
  now rewrite Heq.
Qed.

Lemma native_round_trip_witness :
  dialectReplace MYSQL (Text (makePart (str "a = ? AND b ?? ?") [VInt KInt 1; VNil]))
                 (Params (makePart (str "a = ? AND b ?? ?") [VInt KInt 1; VNil]))
  = Returned (str "a = ? AND b ?? ?", None).
Proof.
  apply (@native_round_trip (str "a = ? AND b ?? ?") [VInt KInt 1; VNil]).
  - repeat constructor.
  - reflexivity.
  - reflexivity.
  - apply Nat.ltb_lt. vm_compute. reflexivity.
Defined.

(** ** Integers without a literal *)

(** X17: The type switch of [paramToRaw] lists [int], [int8] to [int64] and
    [uint8] to [uint64], not [uint]: a [uint] parameter has no literal, and
    rendering under [RAW] stops at it with the "unsupported type" error and
    the empty text, while an integer of any other kind is written in
    decimal. *)
Theorem RAW_uint_parameter sql pre post z :
  Forall (fun q => snd (paramToRaw q) = None) pre ->
  dialectReplace RAW sql (pre ++ VInt KUint z :: post)
  = Returned ([], Some (UnsupportedRaw (VInt KUint z))) /\
  (forall k, k <> KUint -> paramToRaw (VInt k z) = (fmt_Z z, None)).
Proof.
  intros Hpre. split.
  - unfold dialectReplace.
    now rewrite (@rawParams_first_failure pre (VInt KUint z) post
                   (UnsupportedRaw (VInt KUint z)) Hpre eq_refl).
  - intros k Hk. destruct k; try reflexivity. congruence.
Qed.

Lemma RAW_uint_parameter_witness :
  dialectReplace RAW (str "a = xX_PARAM_Xx AND b = xX_PARAM_Xx")
                 ([VInt KUint8 200] ++ VInt KUint 7 :: [])
  = Returned ([], Some (UnsupportedRaw (VInt KUint 7))).
Proof.
  apply (@RAW_uint_parameter (str "a = xX_PARAM_Xx AND b = xX_PARAM_Xx")
           [VInt KUint8 200] [] 7).
  repeat constructor.
Defined.

(** * The buffer of the scanner *)

Lemma skipn_repeat_head (c : ascii) : forall n i,
  i < n -> exists r, skipn i (repeat c n) = c :: r.
Proof.
  induction n as [|n IH]; intros i Hi; [lia|].
  destruct i as [|i]; [now exists (repeat c n)|].
  cbn [repeat skipn]. apply IH. lia.
Qed.

Lemma long_text_length : length long_text = Bufio.MaxScanTokenSize.
Proof. apply repeat_length. Qed.

Lemma prefix_without_token c n r :
  c <> "x"%char ->
  replace_from paramPh r 0 (repeat c n ++ paramPh) = repeat c n ++ r.
Proof.
  intros Hc. rewrite replace_skip_free.
  - f_equal. rewrite <- (app_nil_r paramPh) at 2.
    rewrite (@replace_from_at paramPh r paramPh_nonempty) by apply HasPrefix_app.
    rewrite skipn_app, skipn_all, Nat.sub_diag. cbn [skipn app replace_from].
    apply app_nil_r.
  - intros i Hi. rewrite repeat_length in Hi.
    destruct (@skipn_repeat_head c n i Hi) as (t & Hs). rewrite Hs.
    cbn [app]. change paramPh with ("x"%char :: str "X_PARAM_Xx") at 2.
    cbn [HasPrefix]. destruct (ascii_dec "x" c); [congruence|reflexivity].
Qed.

Lemma long_prefix_kept :
  replace_from paramPh (dollar 0) 0 (long_text ++ paramPh) = long_text ++ str "$1".
Proof.
  unfold long_text. rewrite prefix_without_token by discriminate.
  reflexivity.
Qed.

Lemma no_occurrence_unchanged marker r s :
  Count s marker = 0 ->
  replace_occurrences marker (fun _ => r) s = s /\ ReplaceAll s marker r = s.
Proof.
  intros Hc.
  assert (replace_occurrences marker (fun _ => r) s = s) as Hr
    by (apply subst_no_occurrence; exact Hc).
  split; [exact Hr|]. unfold ReplaceAll. unfold replace_occurrences in Hr.
  rewrite subst_from_const in Hr. exact Hr.
Qed.

Lemma long_text_Count : Count long_text (str "?") = 0.
Proof. vm_compute. reflexivity. Qed.

(** C2: [scanReplace] reads the text through a [bufio.Scanner] with its
    default buffer, which is never enlarged: on a text of
    [bufio.MaxScanTokenSize] bytes (64 KiB) without any occurrence of the
    marker the split function keeps asking for more data until the buffer
    is full, and [scanReplace] returns the empty text with [ErrTooLong]
    where the text was to come back unchanged.  Replacing every occurrence
    the way the contract asks, as [strings.ReplaceAll] does for the other
    replacements of the package, gives the text back. *)
Theorem scanReplace_buffer_limit :
  length long_text = Bufio.MaxScanTokenSize /\
  Count long_text (str "?") = 0 /\
  scanReplace long_text (str "?") (fun _ => Some (str "$"))
  = Returned ([], Some Bufio.ErrTooLong) /\
  replace_occurrences (str "?") (fun _ => str "$") long_text = long_text /\
  ReplaceAll long_text (str "?") (str "$") = long_text.
Proof.
  split; [exact long_text_length|]. split; [exact long_text_Count|].
  split; [exact scanReplace_long_text|].
  exact (@no_occurrence_unchanged (str "?") (str "$") long_text long_text_Count).
Qed.

(** C4: the [PGSQL] rendering goes through the same scanner.  A text of
    64 KiB followed by its only placeholder token, without any [??],
    renders to the empty text and the joined error [ErrTooLong]: no [$1]
    is produced, although replacing the token in place gives the text
    followed by [$1]. *)
Theorem PGSQL_buffer_limit :
  Count (long_text ++ paramPh) paramPh = 1 /\
  dialectReplace PGSQL (long_text ++ paramPh) [VInt KInt 1]
  = Returned ([], Some (Joined [ScanError Bufio.ErrTooLong])) /\
  ReplaceAll (long_text ++ paramPh) paramPh (dollar 0) = long_text ++ str "$1".
Proof.
  destruct PGSQL_long_text_fails as (Hc & Hr).
  split; [exact Hc|]. split; [exact Hr|].
  unfold ReplaceAll. apply long_prefix_kept.
Qed.
